(** * Chunk-level deduplication upload handler (backend/server.js)

    A shallow embedding of the [/upload] route of [backend/server.js]:
    the fixed-size chunker that runs inside the read stream's ['data'] and
    ['end'] handlers, [ensureChunkStored], [putFileManifest] and the
    surrounding [try]/[catch] that turns a rejection into a 500 reply.

    The AWS services are external.  They are modelled by a small world
    ([Sys]): the [chunks] table, the S3 bucket and the [files] table as finite
    maps, together with a schedule that says, for every request the handler
    sends, which conditional inserts of concurrent uploads reach the [chunks]
    table before the request is served, whether the service rejects the
    request, and what the wall clock reads afterwards.  [crypto.randomUUID]
    draws from a generator that the world carries.  Handlers run one at a
    time: the source pauses the stream on entry of the ['data'] handler and
    resumes it on exit.  SHA-256 is a parameter of the development; the
    static routes, the listing route and the removal of the temporary file
    are not part of it. *)

From Stdlib Require Import NArith Lia.
From Stdlib.Strings Require Import Byte.
From stdpp Require Import gmap strings list fin_maps pretty.

Local Open Scope string_scope.
Local Open Scope list_scope.
Local Open Scope N_scope.

(** ** Data *)

Abbreviation bytes := (list byte).

(** [buf.length] *)
Definition blen (buf : bytes) : N := N.of_nat (length buf).

(** [buf.subarray(start, stop)] and [buf.subarray(start)] for offsets that are
    not negative; offsets past the end are clamped, as [take] and [drop] do. *)
Definition subarray (buf : bytes) (start stop : N) : bytes :=
  take (N.to_nat (stop - start)) (drop (N.to_nat start) buf).

Definition subarrayFrom (buf : bytes) (start : N) : bytes :=
  drop (N.to_nat start) buf.

(** A JavaScript [Error]: the handler only reads [message]. *)
Record JsError := mkError { name : string; message : string }.

(** An item of the [chunks] table. *)
Module ChunkItem.
Record t := mk { hash : string; size : N; s3Key : string; createdAt : string }.
End ChunkItem.

(** An item of the [files] table. *)
Module FileItem.
Record t := mk {
  fileId : string;
  fileName : string;
  size : N;
  uploadDate : string;
  contentHash : string;
  chunkHashes : list string
}.
End FileItem.

(** The JSON body of the 200 reply. *)
Module Reply.
Record t := mk {
  message : string;
  fileId : string;
  fileName : string;
  size : N;
  chunks : N;
  uploadedNewChunks : N;
  reusedChunks : N
}.
End Reply.

Inductive Response :=
| Status200 (body : Reply.t)
| Status400 (body : string)
| Status500 (body : string).

(** The read stream of the temporary file: the fragments of its ['data']
    events, in order, and then either ['end'] or an ['error'] that the
    stream emits between two events, when no handler is suspended.  An
    ['error'] that it emits while a request of a handler is in flight, or
    after ['end'], is a [Pending] below. *)
Inductive StreamEnd := EndOfFile | ReadError (e : JsError).

Record ReadStream := mkStream { fragments : list bytes; ending : StreamEnd }.

(** [req.file] as multer leaves it. *)
Record UploadedFile := mkFile { originalname : string; readStream : ReadStream }.

(** ** Config *)

Definition BUCKET_NAME : string := "deduplication-bucket-cloudproject".
Definition CHUNK_SIZE : N := 5 * 1024 * 1024.
Definition CHUNKS_TABLE : string := "chunks".
Definition FILES_TABLE : string := "files".

(** ** The world and the requests sent to it *)

(** What happens around one request: [others] are the conditional inserts
    ([attribute_not_exists(hash)]) of concurrent uploads that are served
    first, [fault] is the rejection of the request if the service rejects it,
    [clock] is what [new Date().toISOString()] reads from then on. *)
Record Env := mkEnv {
  others : list ChunkItem.t;
  fault : option JsError;
  clock : string
}.

Record Sys := mkSys {
  chunksTable : gmap string ChunkItem.t;
  s3Bucket : gmap string bytes;
  filesTable : gmap string FileItem.t;
  schedule : list Env;
  wallClock : string;
  rng : nat -> string;
  drawn : nat
}.

Inductive Call :=
| GetItem (table hash : string)
| PutObject (bucket key : string) (body : bytes)
| PutItemIfAbsent (table : string) (item : ChunkItem.t)
| PutItem (table : string) (item : FileItem.t).

(** The observable history of a run: every request with its rejection, if
    any, and every entry into [ensureChunkStored] with its arguments. *)
Inductive Event :=
| Sent (c : Call) (rejection : option JsError)
| Ensure (chunkHash : string) (chunkBuffer : bytes).

(** ** A monad for the handler: world, exceptions, history *)

Inductive Outcome (A : Type) :=
| Ok (a : A)
| Throw (e : JsError)
| Stuck.
Arguments Ok {A} a.
Arguments Throw {A} e.
Arguments Stuck {A}.

Definition M (A : Type) : Type := Sys -> Outcome A * Sys * list Event.

Definition ret {A} (a : A) : M A := fun s => (Ok a, s, []).

Definition bind {A B} (m : M A) (k : A -> M B) : M B := fun s =>
  match m s with
  | (Ok a, s1, t1) => let '(o, s2, t2) := k a s1 in (o, s2, t1 ++ t2)
  | (Throw e, s1, t1) => (Throw e, s1, t1)
  | (Stuck, s1, t1) => (Stuck, s1, t1)
  end.

Definition throw {A} (e : JsError) : M A := fun s => (Throw e, s, []).

Definition stuck {A} : M A := fun s => (Stuck, s, []).

(** [try { m } catch (e) { h e }] *)
Definition tryCatch {A} (m : M A) (h : JsError -> M A) : M A := fun s =>
  match m s with
  | (Throw e, s1, t1) => let '(o, s2, t2) := h e s1 in (o, s2, t1 ++ t2)
  | r => r
  end.

Definition emit (ev : Event) : M unit := fun s => (Ok tt, s, [ev]).

Definition gets {A} (f : Sys -> A) : M A := fun s => (Ok (f s), s, []).

Definition modify (f : Sys -> Sys) : M unit := fun s => (Ok tt, f s, []).

Declare Scope js_scope.
Delimit Scope js_scope with js.
Notation "x <- m ;; k" := (bind m (fun x => k))
  (at level 100, m at next level, right associativity) : js_scope.
Notation "m ;; k" := (bind m (fun _ => k))
  (at level 100, right associativity) : js_scope.
Local Open Scope js_scope.

(** One conditional insert: it lands only if the key is free. *)
Definition insertIfAbsent (item : ChunkItem.t) (tbl : gmap string ChunkItem.t)
  : gmap string ChunkItem.t :=
  match tbl !! ChunkItem.hash item with
  | Some _ => tbl
  | None => <[ChunkItem.hash item := item]> tbl
  end.

Definition interfere (items : list ChunkItem.t) (tbl : gmap string ChunkItem.t)
  : gmap string ChunkItem.t :=
  foldl (fun t item => insertIfAbsent item t) tbl items.

Definition quiet : Env := mkEnv [] None "".

(** The schedule entry that the next request meets; an exhausted schedule
    behaves as [quiet] entries. *)
Definition upcoming (s : Sys) : Env :=
  match schedule s with
  | [] => quiet
  | e :: _ => e
  end.

(** The world once the next request has reached the service: the concurrent
    inserts scheduled before it have been applied and the clock has moved. *)
Definition served (s : Sys) : Sys :=
  match schedule s with
  | [] => s
  | e :: rest =>
      mkSys (interfere (others e) (chunksTable s)) (s3Bucket s) (filesTable s)
            rest (clock e) (rng s) (drawn s)
  end.

Definition arrive : M Env := fun s => (Ok (upcoming s), served s, []).

(** The three writes, as the services apply them. *)
Definition storeObject (key : string) (body : bytes) (s : Sys) : Sys :=
  mkSys (chunksTable s) (<[key := body]> (s3Bucket s)) (filesTable s)
        (schedule s) (wallClock s) (rng s) (drawn s).

Definition storeChunkItem (item : ChunkItem.t) (s : Sys) : Sys :=
  mkSys (<[ChunkItem.hash item := item]> (chunksTable s)) (s3Bucket s)
        (filesTable s) (schedule s) (wallClock s) (rng s) (drawn s).

Definition storeFileItem (item : FileItem.t) (s : Sys) : Sys :=
  mkSys (chunksTable s) (s3Bucket s)
        (<[FileItem.fileId item := item]> (filesTable s))
        (schedule s) (wallClock s) (rng s) (drawn s).

(** [dynamoDB.send(new GetItemCommand({TableName: CHUNKS_TABLE, Key: {hash}}))],
    reduced to [existing.Item]. *)
Definition sendGetItem (hash : string) : M (option ChunkItem.t) :=
  e <- arrive ;;
  emit (Sent (GetItem CHUNKS_TABLE hash) (fault e)) ;;
  match fault e with
  | Some err => throw err
  | None => gets (fun s => chunksTable s !! hash)
  end.

(** [s3.send(new PutObjectCommand({Bucket, Key, Body}))] *)
Definition sendPutObject (key : string) (body : bytes) : M unit :=
  e <- arrive ;;
  emit (Sent (PutObject BUCKET_NAME key body) (fault e)) ;;
  match fault e with
  | Some err => throw err
  | None =>
      modify (storeObject key body)
  end.

Definition ConditionalCheckFailed : JsError :=
  mkError "ConditionalCheckFailedException" "The conditional request failed".

(** [dynamoDB.send(new PutItemCommand({TableName: CHUNKS_TABLE, Item,
    ConditionExpression: 'attribute_not_exists(hash)'}))] *)
Definition sendPutItemIfAbsent (item : ChunkItem.t) : M unit :=
  e <- arrive ;;
  match fault e with
  | Some err =>
      emit (Sent (PutItemIfAbsent CHUNKS_TABLE item) (Some err)) ;;
      throw err
  | None =>
      present <- gets (fun s => chunksTable s !! ChunkItem.hash item) ;;
      match present with
      | Some _ =>
          emit (Sent (PutItemIfAbsent CHUNKS_TABLE item)
                     (Some ConditionalCheckFailed)) ;;
          throw ConditionalCheckFailed
      | None =>
          emit (Sent (PutItemIfAbsent CHUNKS_TABLE item) None) ;;
          modify (storeChunkItem item)
      end
  end.

(** [dynamoDB.send(new PutItemCommand({TableName: FILES_TABLE, Item}))] *)
Definition sendPutItem (item : FileItem.t) : M unit :=
  e <- arrive ;;
  emit (Sent (PutItem FILES_TABLE item) (fault e)) ;;
  match fault e with
  | Some err => throw err
  | None =>
      modify (storeFileItem item)
  end.

(** [new Date().toISOString()] *)
Definition dateNow : M string := gets wallClock.

(** [crypto.randomUUID()] *)
Definition randomUUID : M string := fun s =>
  (Ok (rng s (drawn s)),
   mkSys (chunksTable s) (s3Bucket s) (filesTable s) (schedule s) (wallClock s)
         (rng s) (S (drawn s)),
   []).

Section Server.

(** ** Helpers *)

(** SHA-256 with its result in hexadecimal: the function that
    [crypto.createHash('sha256')] computes of everything it is fed. *)
Variable sha256 : bytes -> string.

(** A [crypto] hash object is determined by the bytes absorbed so far. *)
Definition Hash := bytes.
Definition createHash : Hash := [].
Definition update (h : Hash) (data : bytes) : Hash := h ++ data.
Definition digest (h : Hash) : string := sha256 h.

Definition sha256Hex (buf : bytes) : string := digest (update createHash buf).

(** The result [{ existed }] is its only field. *)
Definition ensureChunkStored (chunkHash : string) (chunkBuffer : bytes) : M bool :=
  emit (Ensure chunkHash chunkBuffer) ;;
  (* Fast path: check if chunk already known *)
  existing <- sendGetItem chunkHash ;;
  match existing with
  | Some _ => ret true
  | None =>
      (* Upload chunk to S3 *)
      let s3Key := "chunks/" +:+ chunkHash in
      sendPutObject s3Key chunkBuffer ;;
      (* Record chunk metadata; the catch clause is empty *)
      tryCatch
        (createdAt <- dateNow ;;
         sendPutItemIfAbsent
           (ChunkItem.mk chunkHash (blen chunkBuffer) s3Key createdAt))
        (fun _ => ret tt) ;;
      ret false
  end.

Definition putFileManifest (fileId fileName : string) (size : N)
    (chunkHashes : list string) (contentHash : string) : M unit :=
  uploadDate <- dateNow ;;
  sendPutItem (FileItem.mk fileId fileName size uploadDate contentHash chunkHashes).

(** ** The upload handler *)

(** The variables of the handler that its stream callbacks share. *)
Record Locals := mkLocals {
  buffered : bytes;
  chunkHashes : list string;
  contentHasher : Hash;
  totalBytes : N;
  uploadedNewChunks : N;
  reusedChunks : N
}.

(** [if (existed) reusedChunks++; else uploadedNewChunks++;
    chunkHashes.push(chunkHash);] *)
Definition tally (existed : bool) (chunkHash : string) (l : Locals) : Locals :=
  mkLocals (buffered l) (chunkHashes l ++ [chunkHash]) (contentHasher l)
           (totalBytes l)
           (if existed then uploadedNewChunks l else uploadedNewChunks l + 1)
           (if existed then reusedChunks l + 1 else reusedChunks l).

(** The four statements that the loop and the tail branch have in common:
    hash the chunk, [ensureChunkStored], count it, push its hash. *)
Definition processChunk (chunk : bytes) (l : Locals) : M Locals :=
  let chunkHash := sha256Hex chunk in
  existed <- ensureChunkStored chunkHash chunk ;;
  ret (tally existed chunkHash l).

(** [while (buffered.length >= CHUNK_SIZE) { ... }]; [fuel] bounds the number
    of iterations and [Stuck] reports that it did not suffice. *)
Fixpoint drain (fuel : nat) (l : Locals) : M Locals :=
  if CHUNK_SIZE <=? blen (buffered l) then
    match fuel with
    | O => stuck
    | S fuel' =>
        let chunk := subarray (buffered l) 0 CHUNK_SIZE in
        let l1 := mkLocals (subarrayFrom (buffered l) CHUNK_SIZE) (chunkHashes l)
                           (contentHasher l) (totalBytes l)
                           (uploadedNewChunks l) (reusedChunks l) in
        l2 <- processChunk chunk l1 ;;
        drain fuel' l2
    end
  else ret l.

(** The ['data'] handler.  Every iteration of its loop removes [CHUNK_SIZE]
    bytes from [buffered], so the length of [buffered] is fuel enough. *)
Definition onData (data : bytes) (l : Locals) : M Locals :=
  let l1 := mkLocals (buffered l ++ data) (chunkHashes l)
                     (update (contentHasher l) data)
                     (totalBytes l + blen data)
                     (uploadedNewChunks l) (reusedChunks l) in
  drain (length (buffered l1)) l1.

(** The ['end'] handler. *)
Definition onEnd (l : Locals) : M Locals :=
  if 0 <? blen (buffered l) then processChunk (buffered l) l else ret l.

Fixpoint deliver (frags : list bytes) (l : Locals) : M Locals :=
  match frags with
  | [] => ret l
  | data :: rest => l1 <- onData data l ;; deliver rest l1
  end.

(** [await new Promise((resolve, reject) => ...)], for a stream that emits
    ['error'] only between two events: the handlers run in the order of the
    stream's events; the first rejection settles the promise and leaves the
    stream paused.  [streamPromiseE] below is the promise for a stream that
    may also emit ['error'] while a handler is suspended. *)
Definition streamPromise (rs : ReadStream) (l : Locals) : M Locals :=
  l1 <- deliver (fragments rs) l ;;
  match ending rs with
  | EndOfFile => onEnd l1
  | ReadError e => throw e
  end.

Definition initially : Locals := mkLocals [] [] createHash 0 0 0.

(** [app.post('/upload', upload.single('file'), async (req, res) => ...)];
    the removal of the temporary file is left out. *)
Definition upload (file : option UploadedFile) : M Response :=
  match file with
  | None => ret (Status400 "No file uploaded.")
  | Some file =>
      fileId <- randomUUID ;;
      let fileName := originalname file in
      tryCatch
        (l <- streamPromise (readStream file) initially ;;
         let contentHash := digest (contentHasher l) in
         (* Always store a file manifest *)
         putFileManifest fileId fileName (totalBytes l) (chunkHashes l) contentHash ;;
         ret (Status200
                (Reply.mk "File processed with chunk-level deduplication."
                          fileId fileName (totalBytes l)
                          (N.of_nat (length (chunkHashes l)))
                          (uploadedNewChunks l) (reusedChunks l))))
        (fun err => ret (Status500 ("Error processing file: " +:+ message err)))
  end.

(** ** Vocabulary of the statements *)

(** The chunks handed to [ensureChunkStored] during a run, in order, and
    the digests handed over with them. *)
Definition emitted (evs : list Event) : list bytes :=
  omap (fun ev => match ev with Ensure _ c => Some c | Sent _ _ => None end) evs.

Definition digests (evs : list Event) : list string :=
  omap (fun ev => match ev with Ensure h _ => Some h | Sent _ _ => None end) evs.

(** The bytes of a stream, whatever the fragments they arrive in. *)
Definition content (rs : ReadStream) : bytes := concat (fragments rs).

(** No request of the schedule is rejected. *)
Definition faultFree (sch : list Env) : Prop :=
  Forall (fun e => fault e = None) sch.

(** A chunk sequence is a fixed-size chunking of [data]: it concatenates to
    [data], no chunk is empty or longer than [CHUNK_SIZE], and every chunk
    that is not the last one has exactly [CHUNK_SIZE] bytes. *)
Definition fixedSizeChunking (data : bytes) (cs : list bytes) : Prop :=
  concat cs = data /\
  (forall i c, cs !! i = Some c -> 0 < blen c <= CHUNK_SIZE) /\
  (forall i c, cs !! i = Some c -> (S i < length cs)%nat -> blen c = CHUNK_SIZE).

(** The sum of the lengths of a chunk sequence. *)
Definition sumLengths (cs : list bytes) : N :=
  foldr (fun c n => blen c + n) 0 cs.

(** The requests of a history that change a store. *)
Definition isStoreWrite (ev : Event) : bool :=
  match ev with
  | Sent (PutObject _ _ _) _ => true
  | _ => false
  end.

Definition isIndexWrite (ev : Event) : bool :=
  match ev with
  | Sent (PutItemIfAbsent _ _) _ => true
  | _ => false
  end.

(** A request whose rejection the handler does not catch: any rejected
    request but the conditional insert. *)
Definition rejectedRequest (ev : Event) : bool :=
  match ev with
  | Sent (PutItemIfAbsent _ _) _ => false
  | Sent _ (Some _) => true
  | _ => false
  end.

(** What every run of chunk processing leaves alone or only extends: the
    [files] table and the UUID generator are untouched, the [chunks] table
    only grows, the schedule is consumed from the front. *)
Definition advances (s s' : Sys) : Prop :=
  filesTable s' = filesTable s /\
  rng s' = rng s /\
  drawn s' = drawn s /\
  chunksTable s ⊆ chunksTable s' /\
  exists k, schedule s' = drop k (schedule s).

(** The effect of a stretch of chunk processing that starts with locals [l]
    in world [s], on the counters, the hash list, the index and the history. *)
Definition chunkRun (l : Locals) (s : Sys) (o : Outcome Locals) (s' : Sys)
    (t : list Event) : Prop :=
  advances s s' /\
  digests t = map sha256Hex (emitted t) /\
  match o with
  | Ok l' =>
      chunkHashes l' = chunkHashes l ++ digests t /\
      uploadedNewChunks l' + reusedChunks l' =
        uploadedNewChunks l + reusedChunks l + N.of_nat (length (emitted t)) /\
      Forall (fun ev => rejectedRequest ev = false) t /\
      ((forall h, h ∈ digests t -> is_Some (chunksTable s !! h)) ->
       uploadedNewChunks l' = uploadedNewChunks l) /\
      (faultFree (schedule s) ->
       forall h, h ∈ digests t -> is_Some (chunksTable s' !! h))
  | Throw e =>
      exists c, last t = Some (Sent c (Some e)) /\
                rejectedRequest (Sent c (Some e)) = true
  | Stuck => False
  end /\
  (faultFree (schedule s) -> faultFree (schedule s') /\ exists l', o = Ok l').

(** The chunker's invariant between two iterations: [seen] are the bytes
    received so far, [cs] the chunks cut from them so far. *)
Record Chunked (seen : bytes) (cs : list bytes) (l : Locals) : Prop := {
  chunked_concat : concat cs ++ buffered l = seen;
  chunked_full : Forall (fun c => blen c = CHUNK_SIZE) cs;
  chunked_hasher : contentHasher l = seen;
  chunked_total : totalBytes l = blen seen
}.

(** ** Scenarios

    Concrete requests and worlds on which the statements below are run, with
    [plainDigest] for the digest.  The UUID generator returns the decimal
    numerals ["0"], ["1"], ... *)

Definition uuidOf (n : nat) : string := pretty n.

(** The digest of the scenarios: the bytes themselves, read as a string. *)
Definition plainDigest (buf : bytes) : string := String.string_of_list_byte buf.

Definition abc : bytes := [x61; x62; x63].

Definition emptyWorld : Sys := mkSys ∅ ∅ ∅ [] "" uuidOf 0.

Definition twoPlusOne : ReadStream := mkStream [[x61; x62]; [x63]] EndOfFile.
Definition onePlusTwo : ReadStream := mkStream [[x61]; [x62; x63]] EndOfFile.

Definition fileA : UploadedFile := mkFile "a.txt" twoPlusOne.
Definition fileB : UploadedFile := mkFile "b.txt" onePlusTwo.

Definition abcItem : ChunkItem.t := ChunkItem.mk "abc" 3 "chunks/abc" "".

Definition abcHistory : list Event :=
  [Ensure "abc" abc;
   Sent (GetItem CHUNKS_TABLE "abc") None;
   Sent (PutObject BUCKET_NAME "chunks/abc" abc) None;
   Sent (PutItemIfAbsent CHUNKS_TABLE abcItem) None].

(** The world once [abc] has been stored as one new chunk. *)
Definition abcStored (drawn : nat) : Sys :=
  mkSys {[ "abc" := abcItem ]} {[ "chunks/abc" := abc ]} ∅ [] "" uuidOf drawn.

Definition manifestA : FileItem.t := FileItem.mk "0" "a.txt" 3 "" "abc" ["abc"].
Definition manifestB : FileItem.t := FileItem.mk "1" "b.txt" 3 "" "abc" ["abc"].

Definition replyA : Reply.t :=
  Reply.mk "File processed with chunk-level deduplication." "0" "a.txt" 3 1 1 0.
Definition replyB : Reply.t :=
  Reply.mk "File processed with chunk-level deduplication." "1" "b.txt" 3 1 0 1.

(** The world after [fileA] has been uploaded into [emptyWorld], and after
    [fileB] has been uploaded next. *)
Definition afterA : Sys :=
  mkSys {[ "abc" := abcItem ]} {[ "chunks/abc" := abc ]} {[ "0" := manifestA ]}
        [] "" uuidOf 1.
Definition afterB : Sys :=
  mkSys {[ "abc" := abcItem ]} {[ "chunks/abc" := abc ]}
        (<["1" := manifestB]> {[ "0" := manifestA ]}) [] "" uuidOf 2.

(** A rival upload's insert of the same digest lands between this upload's
    lookup and its own insert. *)
Definition rivalItem : ChunkItem.t := ChunkItem.mk "abc" 3 "chunks/abc" "earlier".
Definition raceWorld : Sys :=
  mkSys ∅ ∅ ∅ [quiet; quiet; mkEnv [rivalItem] None "later"] "" uuidOf 0.
Definition raceLost : Sys :=
  mkSys {[ "abc" := rivalItem ]} {[ "chunks/abc" := abc ]} ∅ [] "later" uuidOf 0.

(** The store rejects the first blob. *)
Definition accessDenied : JsError := mkError "AccessDenied" "Access Denied".
Definition rejectingStore : Sys :=
  mkSys ∅ ∅ ∅ [quiet; mkEnv [] (Some accessDenied) ""] "" uuidOf 0.
Definition storeRejected : Sys := mkSys ∅ ∅ ∅ [] "" uuidOf 1.

(** The index rejects the first conditional insert, and not because the
    key exists. *)
Definition throttled : JsError :=
  mkError "ProvisionedThroughputExceededException" "Rate exceeded".
Definition throttledIndex : Sys :=
  mkSys ∅ ∅ ∅ [quiet; quiet; mkEnv [] (Some throttled) ""] "" uuidOf 0.
Definition indexThrottled : Sys :=
  mkSys ∅ {[ "chunks/abc" := abc ]} {[ "0" := manifestA ]} [] "" uuidOf 1.

Definition emptyFile : UploadedFile := mkFile "empty.bin" (mkStream [] EndOfFile).
Definition emptyManifest : FileItem.t := FileItem.mk "0" "empty.bin" 0 "" "" [].

(** ** The listing route *)

Inductive ListingResponse :=
| Listing (items : list FileItem.t)
| ListingError (body : string).

(** [dynamoDB.send(new ScanCommand({TableName: FILES_TABLE}))], reduced to
    [data.Items].  The handler sends one scan and follows no continuation
    key, so it receives one page: [page] is the number of items that the
    service puts into it.  The order of the items is the service's. *)
Definition sendScan (page : nat) : M (list FileItem.t) :=
  e <- arrive ;;
  match fault e with
  | Some err => throw err
  | None => gets (fun s => take page (map_to_list (filesTable s)).*2)
  end.

(** [app.get('/files', async (req, res) => ...)] *)
Definition listFiles (page : nat) : M ListingResponse :=
  tryCatch
    (items <- sendScan page ;;
     ret (Listing items))
    (fun _ => ret (ListingError "Error fetching files.")).

(** ** Vocabulary of the further statements *)

(** The world in which the stream of an upload is read: one UUID is drawn. *)
Definition afterDraw (s : Sys) : Sys :=
  mkSys (chunksTable s) (s3Bucket s) (filesTable s) (schedule s) (wallClock s)
        (rng s) (S (drawn s)).

(** Two values of the locals with the same hash list and counters. *)
Definition sameTally (l l' : Locals) : Prop :=
  chunkHashes l = chunkHashes l' /\
  uploadedNewChunks l = uploadedNewChunks l' /\
  reusedChunks l = reusedChunks l'.

Definition isLookup (ev : Event) : bool :=
  match ev with
  | Sent (GetItem _ _) _ => true
  | _ => false
  end.

(** The number of events of a history that satisfy [p]. *)
Definition countEvents (p : Event -> bool) (t : list Event) : N :=
  N.of_nat (length (List.filter p t)).

(** The key under which the blob of a digest is written. *)
Definition blobKey (h : string) : string := "chunks/" +:+ h.

(** An index item that describes a blob. *)
Definition describes (item : ChunkItem.t) (body : bytes) : Prop :=
  ChunkItem.hash item = sha256Hex body /\
  ChunkItem.size item = blen body /\
  ChunkItem.s3Key item = blobKey (ChunkItem.hash item).

(** The bucket holds, under the key of digest [h], a blob with that digest. *)
Definition blobStored (s : Sys) (h : string) : Prop :=
  exists body, s3Bucket s !! blobKey h = Some body /\ sha256Hex body = h.

(** The bytes of [data] from offset [i * CHUNK_SIZE] up to, and not
    including, offset [(i + 1) * CHUNK_SIZE]. *)
Definition sliceAt (data : bytes) (i : nat) : bytes :=
  subarray data (N.of_nat i * CHUNK_SIZE) (N.of_nat (S i) * CHUNK_SIZE).

(** The number of chunks of a stream of [n] bytes: [n / CHUNK_SIZE], rounded
    up. *)
Definition chunksNeeded (n : N) : N := (n + CHUNK_SIZE - 1) / CHUNK_SIZE.

(** ** Further scenarios *)

(** The history of the upload of [fileA] into [emptyWorld]. *)
Definition uploadAHistory : list Event :=
  abcHistory ++ [Sent (PutItem FILES_TABLE manifestA) None].

(** The history of the upload of [fileB] after it. *)
Definition uploadBHistory : list Event :=
  [Ensure "abc" abc; Sent (GetItem CHUNKS_TABLE "abc") None;
   Sent (PutItem FILES_TABLE manifestB) None].

(** The index rejects the first lookup. *)
Definition rejectingIndex : Sys :=
  mkSys ∅ ∅ ∅ [mkEnv [] (Some throttled) ""] "" uuidOf 0.

(** The history of the upload of [fileA] into [throttledIndex]. *)
Definition throttledHistory : list Event :=
  [Ensure "abc" abc; Sent (GetItem CHUNKS_TABLE "abc") None;
   Sent (PutObject BUCKET_NAME "chunks/abc" abc) None;
   Sent (PutItemIfAbsent CHUNKS_TABLE abcItem) (Some throttled);
   Sent (PutItem FILES_TABLE manifestA) None].

(** ** The ['error'] event while a request is in flight

    [pause()] holds back ['data'] and ['end'], not ['error']:
    [readStream.on('error', reject)] can settle the promise while a handler
    is suspended at an [await], also after ['end'] has been emitted.  The
    handler that is suspended then runs on to its end, the stream is
    destroyed and delivers no further event, and the later [resolve] or
    [reject] of the handler has no effect.  [streamPromise] above is the
    promise of a stream that emits ['error'] only between two events; the
    definitions below add the other case and agree with it when it does not
    arise. *)

(** [Some (n, e)]: the stream emits ['error'] with [e] while request number
    [n], counted from 0, of its handlers is in flight.  [None], or a number
    that the handlers do not reach: no such event before the promise is
    settled. *)
Definition Pending : Type := option (nat * JsError).

Definition isRequest (ev : Event) : bool :=
  match ev with
  | Sent _ _ => true
  | Ensure _ _ => false
  end.

Definition requestsSent (t : list Event) : nat := length (List.filter isRequest t).

(** The result of a handler that was not interrupted, with what is left to
    wait for. *)
Definition carryOn (o : Outcome Locals) (pending : Pending)
  : Outcome (Locals * Pending) :=
  match o with
  | Ok l => Ok (l, pending)
  | Throw e => Throw e
  | Stuck => Stuck
  end.

(** One handler under a pending ['error'].  The world and the history are
    those of the whole handler, also when the promise is rejected while it
    is suspended. *)
Definition interruptible (pending : Pending) (handler : M Locals)
  : M (Locals * Pending) := fun s =>
  let '(o, s', t) := handler s in
  match pending with
  | None => (carryOn o None, s', t)
  | Some (n, e) =>
      if (n <? requestsSent t)%nat
      then (match o with Stuck => Stuck | _ => Throw e end, s', t)
      else (carryOn o (Some ((n - requestsSent t)%nat, e)), s', t)
  end.

Fixpoint deliverE (frags : list bytes) (l : Locals) (pending : Pending)
  : M (Locals * Pending) :=
  match frags with
  | [] => ret (l, pending)
  | data :: rest =>
      r <- interruptible pending (onData data l) ;;
      deliverE rest (fst r) (snd r)
  end.

Definition streamPromiseE (rs : ReadStream) (pending : Pending) (l : Locals)
  : M Locals :=
  r <- deliverE (fragments rs) l pending ;;
  match ending rs with
  | EndOfFile =>
      r' <- interruptible (snd r) (onEnd (fst r)) ;;
      ret (fst r')
  | ReadError e => throw e
  end.

(** The upload handler over [streamPromiseE].  When the promise is
    rejected by an ['error'] that interrupts a handler, the world and the
    history of the result include what that handler does after the reply. *)
Definition uploadE (file : option UploadedFile) (pending : Pending)
  : M Response :=
  match file with
  | None => ret (Status400 "No file uploaded.")
  | Some file =>
      fileId <- randomUUID ;;
      let fileName := originalname file in
      tryCatch
        (l <- streamPromiseE (readStream file) pending initially ;;
         let contentHash := digest (contentHasher l) in
         putFileManifest fileId fileName (totalBytes l) (chunkHashes l) contentHash ;;
         ret (Status200
                (Reply.mk "File processed with chunk-level deduplication."
                          fileId fileName (totalBytes l)
                          (N.of_nat (length (chunkHashes l)))
                          (uploadedNewChunks l) (reusedChunks l))))
        (fun err => ret (Status500 ("Error processing file: " +:+ message err)))
  end.

(** The requests of the stream's handlers: all but the manifest write. *)
Definition isChunkRequest (ev : Event) : bool :=
  match ev with
  | Sent (PutItem _ _) _ => false
  | Sent _ _ => true
  | Ensure _ _ => false
  end.

Definition chunkRequests (t : list Event) : nat :=
  length (List.filter isChunkRequest t).

(** The pending ['error'] is not emitted during the chunk requests of [t]. *)
Definition notFired (pending : Pending) (t : list Event) : Prop :=
  forall n e, pending = Some (n, e) -> (chunkRequests t <= n)%nat.

(** [rs'] is what [rs] has delivered when it emits ['error'] with [e] while
    a handler is suspended: all of [rs], if that is the ['end'] handler, or
    some of its first fragments. *)
Definition cutShort (rs' rs : ReadStream) (e : JsError) : Prop :=
  (rs' = rs /\ ending rs = EndOfFile) \/
  (ending rs' = ReadError e /\
   exists more, fragments rs = fragments rs' ++ more).

(** [body] is one of the chunks [cs], and it is the slice of [data] at its
    position. *)
Definition sliceOf (data : bytes) (cs : list bytes) (body : bytes) : Prop :=
  exists i, cs !! i = Some body /\ body = sliceAt data i /\ 0 < blen body.

(** Histories in which every blob write goes to the bucket under the key
    of the digest of the blob, and every conditional insert follows the
    accepted write of the blob that its item describes. *)
Definition addressed (t : list Event) : Prop :=
  (forall bkt key body rej, Sent (PutObject bkt key body) rej ∈ t ->
     bkt = BUCKET_NAME /\ key = blobKey (sha256Hex body) /\ body ∈ emitted t) /\
  (forall tbl item rej, Sent (PutItemIfAbsent tbl item) rej ∈ t ->
     tbl = CHUNKS_TABLE /\
     exists body,
       Sent (PutObject BUCKET_NAME (ChunkItem.s3Key item) body) None ∈ t /\
       describes item body).

(** No blob leaves the bucket, and a blob that is new under its key is
    stored under the key of its digest and was handed to
    [ensureChunkStored]. *)
Definition bucketKept (s s' : Sys) (t : list Event) : Prop :=
  (forall key, is_Some (s3Bucket s !! key) -> is_Some (s3Bucket s' !! key)) /\
  (forall key body, s3Bucket s' !! key = Some body ->
     s3Bucket s !! key = Some body \/
     (key = blobKey (sha256Hex body) /\ body ∈ emitted t)).

(** ** Scenarios with a full chunk and with an interrupted handler *)

(** [CHUNK_SIZE] zero bytes, and a stream of that fragment and one more
    byte. *)
Definition fullChunk : bytes := replicate (N.to_nat CHUNK_SIZE) x00.
Definition chunkAndByte : ReadStream := mkStream [fullChunk; [x01]] EndOfFile.

Definition readFailure : JsError := mkError "Error" "EIO: i/o error, read".
Definition closeFailure : JsError := mkError "Error" "EIO: i/o error, close".

(** ** Running the monad *)

(** [ensureChunkStored], request by request. *)
Lemma ensureChunkStored_run h c s :
  ensureChunkStored h c s =
  let s1 := served s in
  let get := Sent (GetItem CHUNKS_TABLE h) (fault (upcoming s)) in
  match fault (upcoming s) with
  | Some err => (Throw err, s1, [Ensure h c; get])
  | None =>
    match chunksTable s1 !! h with
    | Some _ => (Ok true, s1, [Ensure h c; get])
    | None =>
      let key := "chunks/" +:+ h in
      let put := Sent (PutObject BUCKET_NAME key c) (fault (upcoming s1)) in
      match fault (upcoming s1) with
      | Some err => (Throw err, served s1, [Ensure h c; get; put])
      | None =>
        let s2 := storeObject key c (served s1) in
        let item := ChunkItem.mk h (blen c) key (wallClock s2) in
        let s3 := served s2 in
        match fault (upcoming s2) with
        | Some err =>
            (Ok false, s3,
             [Ensure h c; get; put; Sent (PutItemIfAbsent CHUNKS_TABLE item) (Some err)])
        | None =>
          match chunksTable s3 !! h with
          | Some _ =>
              (Ok false, s3,
               [Ensure h c; get; put;
                Sent (PutItemIfAbsent CHUNKS_TABLE item) (Some ConditionalCheckFailed)])
          | None =>
              (Ok false, storeChunkItem item s3,
               [Ensure h c; get; put; Sent (PutItemIfAbsent CHUNKS_TABLE item) None])
          end
        end
      end
    end
  end.
Proof.
  unfold ensureChunkStored, sendGetItem, sendPutObject, sendPutItemIfAbsent,
    dateNow, tryCatch, bind, emit, arrive, gets, modify, throw, ret.
  cbv zeta. cbn [app].
  destruct (fault (upcoming s)); [reflexivity|]. cbn [app].
  destruct (chunksTable (served s) !! h); [reflexivity|]. cbn [app].
  destruct (fault (upcoming (served s))); [reflexivity|]. cbn [app].
  set (s2 := storeObject ("chunks/" +:+ h) c (served (served s))).
  destruct (fault (upcoming s2)); [reflexivity|].
  cbn [app ChunkItem.hash].
  destruct (chunksTable (served s2) !! h); reflexivity.
Qed.

Lemma CHUNK_SIZE_pos : 0 < CHUNK_SIZE.
Proof. reflexivity. Qed.

Lemma insertIfAbsent_subseteq item (tbl : gmap string ChunkItem.t) :
  tbl ⊆ insertIfAbsent item tbl.
Proof.
  unfold insertIfAbsent. destruct (tbl !! ChunkItem.hash item) eqn:E.
  - reflexivity.
  - by apply insert_subseteq.
Qed.

Lemma interfere_subseteq items (tbl : gmap string ChunkItem.t) :
  tbl ⊆ interfere items tbl.
Proof.
  unfold interfere. revert tbl.
  induction items as [|item items IH]; intros tbl; simpl.
  - reflexivity.
  - etrans; [apply (insertIfAbsent_subseteq item)|apply IH].
Qed.

Lemma advances_refl s : advances s s.
Proof. repeat split; try reflexivity. by exists 0%nat. Qed.

Lemma advances_trans s1 s2 s3 : advances s1 s2 -> advances s2 s3 -> advances s1 s3.
Proof.
  intros (F1 & R1 & D1 & C1 & k1 & S1) (F2 & R2 & D2 & C2 & k2 & S2).
  repeat split; try congruence.
  - by etrans.
  - exists (k1 + k2)%nat. by rewrite S2, S1, drop_drop.
Qed.

Lemma advances_served s : advances s (served s).
Proof.
  unfold served. destruct (schedule s) as [|e rest] eqn:E.
  - apply advances_refl.
  - repeat split; simpl; try reflexivity.
    + apply interfere_subseteq.
    + exists 1%nat. by rewrite E.
Qed.

Lemma advances_storeObject key body s : advances s (storeObject key body s).
Proof. repeat split; simpl; try reflexivity. by exists 0%nat. Qed.

Lemma advances_storeChunkItem item s :
  chunksTable s !! ChunkItem.hash item = None ->
  advances s (storeChunkItem item s).
Proof.
  intros H. repeat split; simpl; try reflexivity.
  - by apply insert_subseteq.
  - by exists 0%nat.
Qed.

Lemma advances_faultFree s s' :
  advances s s' -> faultFree (schedule s) -> faultFree (schedule s').
Proof.
  intros (_ & _ & _ & _ & k & ->). unfold faultFree. apply Forall_drop.
Qed.

Lemma advances_is_Some s s' h :
  advances s s' -> is_Some (chunksTable s !! h) -> is_Some (chunksTable s' !! h).
Proof. intros (_ & _ & _ & C & _) H. by eapply lookup_weaken_is_Some. Qed.

Lemma faultFree_upcoming s : faultFree (schedule s) -> fault (upcoming s) = None.
Proof.
  unfold upcoming, faultFree. destruct (schedule s); [reflexivity|].
  by intros [? _]%Forall_cons.
Qed.

(** ** One chunk *)

Lemma processChunk_run chunk l s o s' t :
  processChunk chunk l s = (o, s', t) ->
  chunkRun l s o s' t /\ emitted t = [chunk] /\
  forall l', o = Ok l' ->
    buffered l' = buffered l /\ contentHasher l' = contentHasher l /\
    totalBytes l' = totalBytes l.
Proof.
  unfold processChunk, bind. rewrite ensureChunkStored_run. cbv zeta.
  set (h := sha256Hex chunk).
  pose proof (advances_served s) as A1.
  pose proof (advances_served (served s)) as A2.
  set (s2 := storeObject ("chunks/" +:+ h) chunk (served (served s))).
  pose proof (advances_storeObject ("chunks/" +:+ h) chunk (served (served s))) as A3.
  fold s2 in A3.
  pose proof (advances_served s2) as A4.
  assert (advances s (served s2)) as A5
    by (eapply advances_trans; [|exact A4];
        eapply advances_trans; [|exact A3];
        eapply advances_trans; [exact A1|exact A2]).
  destruct (fault (upcoming s)) as [err|] eqn:F1.
  { intros [= <- <- <-]. split; [|split; [reflexivity|discriminate]].
    split; [exact A1|]. split; [reflexivity|]. split.
    - exists (GetItem CHUNKS_TABLE h). split; reflexivity.
    - intros FF. apply faultFree_upcoming in FF. congruence. }
  destruct (chunksTable (served s) !! h) as [rec|] eqn:L1.
  { unfold ret. intros [= <- <- <-].
    split; [|split; [reflexivity|by intros ? [= <-]]].
    split; [exact A1|]. split; [reflexivity|]. split.
    - split; [reflexivity|]. split; [cbn; lia|].
      split; [repeat constructor|]. split; [reflexivity|].
      intros FF h' ->%list_elem_of_singleton.
      eapply advances_is_Some; [apply advances_refl|]. rewrite L1. by eexists.
    - intros FF. split; [exact (advances_faultFree _ _ A1 FF)|by eexists]. }
  destruct (fault (upcoming (served s))) as [err|] eqn:F2.
  { intros [= <- <- <-]. split; [|split; [reflexivity|discriminate]].
    split; [exact (advances_trans _ _ _ A1 A2)|]. split; [reflexivity|]. split.
    - eexists. split; reflexivity.
    - intros FF. apply (advances_faultFree _ _ A1), faultFree_upcoming in FF.
      congruence. }
  assert (forall s3 rej,
    advances s s3 ->
    (faultFree (schedule s) -> is_Some (chunksTable s3 !! h)) ->
    chunkRun l s (Ok (tally false h l)) s3
      [Ensure h chunk; Sent (GetItem CHUNKS_TABLE h) None;
       Sent (PutObject BUCKET_NAME ("chunks/" +:+ h) chunk) None;
       Sent (PutItemIfAbsent CHUNKS_TABLE
               (ChunkItem.mk h (blen chunk) ("chunks/" +:+ h) (wallClock s2)))
            rej]) as Absent.
  { intros s3 rej A P. split; [exact A|]. split; [reflexivity|]. split.
    - split; [reflexivity|]. split; [cbn; lia|].
      split; [repeat constructor|]. split.
      + intros Hin. destruct (Hin h) as [x Hx]; [by apply list_elem_of_singleton|].
        assert (is_Some (chunksTable (served s) !! h)) as [y Hy]
          by (eapply advances_is_Some; [exact A1|by eexists]).
        congruence.
      + intros FF h' ->%list_elem_of_singleton. by apply P.
    - intros FF. split; [exact (advances_faultFree _ _ A FF)|by eexists]. }
  destruct (fault (upcoming s2)) as [err|] eqn:F3.
  { unfold ret. intros [= <- <- <-].
    split; [|split; [reflexivity|by intros ? [= <-]]].
    apply Absent; [exact A5|]. intros FF.
    assert (advances s s2) as A6
      by (eapply advances_trans; [|exact A3]; exact (advances_trans _ _ _ A1 A2)).
    apply (advances_faultFree _ _ A6), faultFree_upcoming in FF. congruence. }
  destruct (chunksTable (served s2) !! h) as [rec|] eqn:L3.
  { unfold ret. intros [= <- <- <-].
    split; [|split; [reflexivity|by intros ? [= <-]]].
    apply Absent; [exact A5|]. intros _. rewrite L3. by eexists. }
  unfold ret. intros [= <- <- <-].
  split; [|split; [reflexivity|by intros ? [= <-]]].
  apply Absent.
  - eapply advances_trans; [exact A5|]. by apply advances_storeChunkItem.
  - intros _. cbn. rewrite lookup_insert_eq. by eexists.
Qed.

Lemma digests_app t1 t2 : digests (t1 ++ t2) = digests t1 ++ digests t2.
Proof. apply omap_app. Qed.

Lemma emitted_app t1 t2 : emitted (t1 ++ t2) = emitted t1 ++ emitted t2.
Proof. apply omap_app. Qed.

(** Chunk processing composes: a stretch that ends normally, followed by a
    stretch that starts from the same counters and hash list. *)
Lemma chunkRun_seq l s l1 s1 t1 l1' o s2 t2 :
  chunkRun l s (Ok l1) s1 t1 ->
  chunkHashes l1' = chunkHashes l1 ->
  uploadedNewChunks l1' = uploadedNewChunks l1 ->
  reusedChunks l1' = reusedChunks l1 ->
  chunkRun l1' s1 o s2 t2 ->
  chunkRun l s o s2 (t1 ++ t2).
Proof.
  intros (A1 & D1 & (H1 & N1 & R1 & P1 & Q1) & FF1) EH EN ER (A2 & D2 & O2 & FF2).
  split; [exact (advances_trans _ _ _ A1 A2)|].
  split; [by rewrite digests_app, emitted_app, map_app, D1, D2|].
  split.
  - destruct o as [l2|e|]; [|destruct O2 as (c & L & Rj)|exact O2].
    + destruct O2 as (H2 & N2 & R2 & P2 & Q2).
      split; [by rewrite H2, EH, H1, digests_app, app_assoc|].
      split; [rewrite emitted_app, length_app; lia|].
      split; [by apply Forall_app|].
      split.
      * intros Hin. rewrite P2, EN, P1; [reflexivity| |].
        -- intros h Hh. apply Hin. rewrite digests_app. apply elem_of_app. by left.
        -- intros h Hh. apply (advances_is_Some _ _ _ A1), Hin.
           rewrite digests_app. apply elem_of_app. by right.
      * intros FF h. rewrite digests_app. intros [Hh|Hh]%elem_of_app.
        -- apply (advances_is_Some _ _ _ A2). by apply Q1.
        -- apply Q2; [|exact Hh]. exact (advances_faultFree _ _ A1 FF).
    + exists c. split; [|exact Rj]. by rewrite last_app, L.
  - intros FF. apply FF2. exact (advances_faultFree _ _ A1 FF).
Qed.

Lemma chunkRun_ret l l' s :
  chunkHashes l' = chunkHashes l ->
  uploadedNewChunks l' = uploadedNewChunks l ->
  reusedChunks l' = reusedChunks l ->
  chunkRun l s (Ok l') s [].
Proof.
  intros EH EN ER. split; [apply advances_refl|]. split; [reflexivity|]. split.
  - split; [by rewrite EH, app_nil_r|]. split; [cbn; lia|].
    split; [constructor|]. split; [by intros _|].
    intros _ h Hh. by apply elem_of_nil in Hh.
  - intros FF. split; [exact FF|by eexists].
Qed.

(** ** The chunk loop *)

Lemma subarray_front buf :
  CHUNK_SIZE <= blen buf ->
  subarray buf 0 CHUNK_SIZE ++ subarrayFrom buf CHUNK_SIZE = buf /\
  blen (subarray buf 0 CHUNK_SIZE) = CHUNK_SIZE /\
  (length (subarrayFrom buf CHUNK_SIZE) < length buf)%nat.
Proof.
  pose proof CHUNK_SIZE_pos as Pos.
  unfold subarray, subarrayFrom, blen. intros Hlen.
  rewrite N.sub_0_r. change (N.to_nat 0) with 0%nat. rewrite drop_0.
  split; [apply take_drop|].
  rewrite length_take, length_drop. lia.
Qed.

Lemma drain_below fuel l :
  blen (buffered l) < CHUNK_SIZE -> drain fuel l = ret l.
Proof.
  intros H%N.leb_gt. destruct fuel; cbn [drain]; by rewrite H.
Qed.

Lemma drain_above fuel l :
  CHUNK_SIZE <= blen (buffered l) ->
  drain (S fuel) l =
  bind (processChunk (subarray (buffered l) 0 CHUNK_SIZE)
          (mkLocals (subarrayFrom (buffered l) CHUNK_SIZE) (chunkHashes l)
                    (contentHasher l) (totalBytes l)
                    (uploadedNewChunks l) (reusedChunks l)))
       (drain fuel).
Proof. intros H%N.leb_le. cbn [drain]. by rewrite H. Qed.

Lemma drain_run fuel : forall l s o s' t seen cs,
  (length (buffered l) <= fuel)%nat ->
  Chunked seen cs l ->
  drain fuel l s = (o, s', t) ->
  chunkRun l s o s' t /\
  forall l', o = Ok l' ->
    Chunked seen (cs ++ emitted t) l' /\ blen (buffered l') < CHUNK_SIZE.
Proof.
  pose proof CHUNK_SIZE_pos as Pos.
  induction fuel as [|fuel IH]; intros l s o s' t seen cs Hfuel Inv;
    destruct (N.le_gt_cases CHUNK_SIZE (blen (buffered l))) as [Hge|Hlt].
  - unfold blen in Hge. lia.
  - rewrite (drain_below _ _ Hlt). intros [= <- <- <-].
    split; [by apply chunkRun_ret|]. intros l' [= <-]. by rewrite app_nil_r.
  - rewrite (drain_above _ _ Hge).
    destruct (subarray_front _ Hge) as (Esplit & Efull & Eshort).
    generalize dependent (subarray (buffered l) 0 CHUNK_SIZE).
    generalize dependent (subarrayFrom (buffered l) CHUNK_SIZE).
    intros rest Eshort chunk Esplit Efull.
    unfold bind at 1.
    destruct (processChunk _ _ s) as [[o1 s1] t1] eqn:E1.
    apply processChunk_run in E1 as (R1 & Em1 & Keep1).
    destruct o1 as [l2|e|].
    + destruct (Keep1 l2 eq_refl) as (Kb & Kh & Kt).
      cbn [buffered contentHasher totalBytes] in Kb, Kh, Kt.
      destruct (drain fuel l2 s1) as [[o2 s2] t2] eqn:E2.
      intros [= <- <- <-].
      apply (IH _ _ _ _ _ seen (cs ++ [chunk])) in E2 as (R2 & Post2).
      * split; [exact (chunkRun_seq _ _ _ _ _ _ _ _ _ R1 eq_refl eq_refl eq_refl R2)|].
        intros l' ->. rewrite emitted_app, Em1, app_assoc. by apply Post2.
      * rewrite Kb. lia.
      * destruct Inv as [Ic If Ih It]. split.
        -- rewrite Kb, concat_app. cbn [concat]. rewrite app_nil_r, <- app_assoc.
           by rewrite Esplit.
        -- apply Forall_app. split; [exact If|by constructor].
        -- by rewrite Kh.
        -- by rewrite Kt.
    + intros [= <- <- <-]. split; [exact R1|discriminate].
    + intros [= <- <- <-]. split; [exact R1|discriminate].
  - rewrite (drain_below _ _ Hlt). intros [= <- <- <-].
    split; [by apply chunkRun_ret|]. intros l' [= <-]. by rewrite app_nil_r.
Qed.

(** ** The stream handlers *)

Lemma chunkRun_from l0 l s o s' t :
  chunkHashes l = chunkHashes l0 ->
  uploadedNewChunks l = uploadedNewChunks l0 ->
  reusedChunks l = reusedChunks l0 ->
  chunkRun l s o s' t -> chunkRun l0 s o s' t.
Proof.
  intros EH EN ER R.
  exact (chunkRun_seq l0 s l0 s [] l o s' t
           (chunkRun_ret l0 l0 s eq_refl eq_refl eq_refl) EH EN ER R).
Qed.

Lemma blen_app (a b : bytes) : blen (a ++ b) = blen a + blen b.
Proof. unfold blen. rewrite length_app. lia. Qed.

Lemma onData_run data l s o s' t seen cs :
  Chunked seen cs l ->
  onData data l s = (o, s', t) ->
  chunkRun l s o s' t /\
  forall l', o = Ok l' ->
    Chunked (seen ++ data) (cs ++ emitted t) l' /\ blen (buffered l') < CHUNK_SIZE.
Proof.
  intros [Ic If Ih It] E. unfold onData in E.
  apply (drain_run _ _ _ _ _ _ (seen ++ data) cs) in E as (R & Post).
  - split; [|exact Post]. by apply (chunkRun_from l) in R.
  - reflexivity.
  - split; cbn [buffered contentHasher totalBytes].
    + by rewrite app_assoc, Ic.
    + exact If.
    + unfold update. by rewrite Ih.
    + by rewrite It, blen_app.
Qed.

Lemma deliver_run frags : forall l s o s' t seen cs,
  Chunked seen cs l ->
  blen (buffered l) < CHUNK_SIZE ->
  deliver frags l s = (o, s', t) ->
  chunkRun l s o s' t /\
  forall l', o = Ok l' ->
    Chunked (seen ++ concat frags) (cs ++ emitted t) l' /\
    blen (buffered l') < CHUNK_SIZE.
Proof.
  induction frags as [|data frags IH]; intros l s o s' t seen cs Inv Hlt;
    cbn [deliver concat].
  - intros [= <- <- <-]. split; [by apply chunkRun_ret|].
    intros l' [= <-]. by rewrite !app_nil_r.
  - unfold bind at 1.
    destruct (onData data l s) as [[o1 s1] t1] eqn:E1.
    apply (onData_run _ _ _ _ _ _ seen cs Inv) in E1 as (R1 & Post1).
    destruct o1 as [l1|e|].
    + destruct (Post1 l1 eq_refl) as (Inv1 & Hlt1).
      destruct (deliver frags l1 s1) as [[o2 s2] t2] eqn:E2.
      intros [= <- <- <-].
      apply (IH _ _ _ _ _ _ _ Inv1 Hlt1) in E2 as (R2 & Post2).
      split; [exact (chunkRun_seq _ _ _ _ _ _ _ _ _ R1 eq_refl eq_refl eq_refl R2)|].
      intros l' ->. rewrite emitted_app, !app_assoc. by apply Post2.
    + intros [= <- <- <-]. split; [exact R1|discriminate].
    + intros [= <- <- <-]. split; [exact R1|discriminate].
Qed.

(** Full chunks followed by a remainder that is shorter than a chunk, the
    remainder being dropped when it is empty. *)
Lemma fixedSizeChunking_tail seen cs (tail : bytes) :
  concat cs ++ tail = seen ->
  Forall (fun c => blen c = CHUNK_SIZE) cs ->
  blen tail < CHUNK_SIZE ->
  fixedSizeChunking seen (cs ++ if 0 <? blen tail then [tail] else []).
Proof.
  pose proof CHUNK_SIZE_pos as Pos.
  intros Ec Hfull Hlt. rewrite Forall_lookup in Hfull.
  destruct (N.ltb_spec 0 (blen tail)) as [Hpos|Hzero].
  - split; [|split].
    + rewrite concat_app. cbn [concat]. by rewrite app_nil_r.
    + intros i c [Hc|[_ Hc]]%lookup_app_Some.
      * rewrite (Hfull _ _ Hc). lia.
      * apply list_lookup_singleton_Some in Hc as [_ <-]. lia.
    + intros i c [Hc|[Hi Hc]]%lookup_app_Some Hlast.
      * exact (Hfull _ _ Hc).
      * apply list_lookup_singleton_Some in Hc as [Hi' <-].
        rewrite length_app in Hlast. cbn in Hlast. lia.
  - assert (tail = []) as -> by (destruct tail; [reflexivity|unfold blen in Hzero; cbn in Hzero; lia]).
    rewrite !app_nil_r in *. split; [exact Ec|split].
    + intros i c Hc. rewrite (Hfull _ _ Hc). lia.
    + intros i c Hc _. exact (Hfull _ _ Hc).
Qed.

Lemma onEnd_run l s o s' t seen cs :
  Chunked seen cs l ->
  blen (buffered l) < CHUNK_SIZE ->
  onEnd l s = (o, s', t) ->
  chunkRun l s o s' t /\
  forall l', o = Ok l' ->
    fixedSizeChunking seen (cs ++ emitted t) /\
    contentHasher l' = seen /\ totalBytes l' = blen seen.
Proof.
  intros [Ic If Ih It] Hlt. unfold onEnd.
  pose proof (fixedSizeChunking_tail _ _ _ Ic If Hlt) as Fin.
  destruct (0 <? blen (buffered l)).
  - intros E. apply processChunk_run in E as (R & Em & Keep).
    split; [exact R|]. intros l' ->. rewrite Em.
    destruct (Keep l' eq_refl) as (_ & Kh & Kt).
    split; [exact Fin|]. by rewrite Kh, Kt.
  - intros [= <- <- <-]. split; [by apply chunkRun_ret|].
    intros l' [= <-]. by split.
Qed.

Lemma Chunked_initially : Chunked [] [] initially.
Proof. by split. Qed.

Lemma streamPromise_run rs s o s' t :
  streamPromise rs initially s = (o, s', t) ->
  advances s s' /\
  match o with
  | Ok l' =>
      chunkRun initially s (Ok l') s' t /\
      fixedSizeChunking (content rs) (emitted t) /\
      contentHasher l' = content rs /\
      totalBytes l' = blen (content rs) /\
      ending rs = EndOfFile
  | Throw e =>
      ending rs = ReadError e \/
      exists c, last t = Some (Sent c (Some e)) /\
                rejectedRequest (Sent c (Some e)) = true
  | Stuck => False
  end /\
  (faultFree (schedule s) -> ending rs = EndOfFile ->
   faultFree (schedule s') /\ exists l', o = Ok l').
Proof.
  unfold streamPromise, bind.
  destruct (deliver (fragments rs) initially s) as [[o1 s1] t1] eqn:E1.
  apply (deliver_run _ _ _ _ _ _ [] [] Chunked_initially eq_refl) in E1
    as (R1 & Post1).
  destruct o1 as [l1|e|].
  - destruct (Post1 l1 eq_refl) as (Inv1 & Hlt1). cbn [app] in Inv1.
    destruct (ending rs) as [|e] eqn:Eend.
    + destruct (onEnd l1 s1) as [[o2 s2] t2] eqn:E2. intros [= <- <- <-].
      apply (onEnd_run _ _ _ _ _ _ _ Inv1 Hlt1) in E2 as (R2 & Post2).
      pose proof (chunkRun_seq _ _ _ _ _ _ _ _ _ R1 eq_refl eq_refl eq_refl R2) as R.
      split; [apply R|]. split.
      * destruct o2 as [l'|e|]; [|right; apply R|apply R].
        destruct (Post2 l' eq_refl) as (Fin & Kh & Kt).
        rewrite emitted_app.
        exact (conj R (conj Fin (conj Kh (conj Kt eq_refl)))).
      * intros FF _. by apply R.
    + unfold throw. intros [= <- <- <-]. rewrite app_nil_r.
      split; [apply R1|]. split; [by left|discriminate].
  - intros [= <- <- <-]. split; [apply R1|]. split; [right; apply R1|].
    intros FF _. by apply R1.
  - intros [= <- <- <-]. split; [apply R1|]. split; [apply R1|].
    intros FF _. by apply R1.
Qed.

(** ** The whole upload *)

Lemma putFileManifest_run fileId fileName size hashes contentHash s :
  putFileManifest fileId fileName size hashes contentHash s =
  let item := FileItem.mk fileId fileName size (wallClock s) contentHash hashes in
  match fault (upcoming s) with
  | Some err => (Throw err, served s, [Sent (PutItem FILES_TABLE item) (Some err)])
  | None =>
      (Ok tt, storeFileItem item (served s), [Sent (PutItem FILES_TABLE item) None])
  end.
Proof.
  unfold putFileManifest, sendPutItem, dateNow, bind, emit, arrive, gets, modify,
    throw. cbv zeta. cbn [app].
  destruct (fault (upcoming s)); reflexivity.
Qed.

(** The world in which the stream is read: one UUID has been drawn. *)
Lemma randomUUID_run s :
  randomUUID s =
  (Ok (rng s (drawn s)),
   mkSys (chunksTable s) (s3Bucket s) (filesTable s) (schedule s) (wallClock s)
         (rng s) (S (drawn s)),
   []).
Proof. reflexivity. Qed.

(** Everything the later statements use about one upload.  Either the
    stream was read to its end, no request but conditional inserts was
    rejected, and the manifest built from the final locals is in the [files]
    table under the fresh id; or a failure was caught, the reply is a 500 and
    the [files] table is as before. *)
Lemma upload_run file s o s' t :
  upload (Some file) s = (o, s', t) ->
  let fileId := rng s (drawn s) in
  let rs := readStream file in
  rng s' = rng s /\ drawn s' = S (drawn s) /\
  chunksTable s ⊆ chunksTable s' /\
  ((exists l tc s1 item,
      o = Ok (Status200
                (Reply.mk "File processed with chunk-level deduplication."
                          fileId (originalname file) (totalBytes l)
                          (N.of_nat (length (chunkHashes l)))
                          (uploadedNewChunks l) (reusedChunks l))) /\
      item = FileItem.mk fileId (originalname file) (totalBytes l) (wallClock s1)
                         (digest (contentHasher l)) (chunkHashes l) /\
      t = tc ++ [Sent (PutItem FILES_TABLE item) None] /\
      filesTable s' = <[fileId := item]> (filesTable s) /\
      ending rs = EndOfFile /\
      fixedSizeChunking (content rs) (emitted tc) /\
      contentHasher l = content rs /\
      totalBytes l = blen (content rs) /\
      chunkHashes l = map sha256Hex (emitted tc) /\
      uploadedNewChunks l + reusedChunks l = N.of_nat (length (emitted tc)) /\
      Forall (fun ev => rejectedRequest ev = false) tc /\
      ((forall h, h ∈ chunkHashes l -> is_Some (chunksTable s !! h)) ->
       uploadedNewChunks l = 0) /\
      digests tc = chunkHashes l)
   \/
   (exists e,
      o = Ok (Status500 ("Error processing file: " +:+ message e)) /\
      filesTable s' = filesTable s /\
      (ending rs = ReadError e \/
       exists c, last t = Some (Sent c (Some e)) /\
                 rejectedRequest (Sent c (Some e)) = true))) /\
  (faultFree (schedule s) -> ending rs = EndOfFile ->
   faultFree (schedule s') /\ exists b, o = Ok (Status200 b)).
Proof.
  cbn [upload]. unfold bind at 1. rewrite randomUUID_run.
  set (s0 := mkSys _ _ _ _ _ _ _).
  unfold tryCatch, bind at 1.
  destruct (streamPromise (readStream file) initially s0) as [[o1 s1] t1] eqn:E1.
  apply streamPromise_run in E1 as (A1 & O1 & FF1).
  pose proof (advances_served s1) as A2.
  destruct o1 as [l|e|]; [|unfold ret; intros [= <- <- <-]|destruct O1].
  - destruct O1 as (R & Fin & Kh & Kt & Eend).
    destruct R as (_ & D & (H & Cn & Rj & Pres & _) & _).
    cbn [chunkHashes initially uploadedNewChunks reusedChunks app] in H, Cn, Pres.
    unfold bind. rewrite putFileManifest_run. cbv zeta.
    destruct (fault (upcoming s1)) as [err|] eqn:F; unfold ret; cbn [app].
    + intros [= <- <- <-].
      pose proof (advances_trans _ _ _ A1 A2) as (Af & Ar & Ad & Ac & _).
      repeat (split; [assumption|]). split.
      * right. exists err. split; [reflexivity|]. split; [exact Af|].
        right. eexists. rewrite app_nil_r, last_snoc. by split.
      * intros FF _. apply FF1 in FF as [FF _]; [|exact Eend].
        apply faultFree_upcoming in FF. congruence.
    + intros [= <- <- <-].
      pose proof (advances_trans _ _ _ A1 A2) as (Af & Ar & Ad & Ac & _).
      cbn [rng drawn chunksTable storeFileItem filesTable s0] in *.
      repeat (split; [assumption|]). split.
      * left. eexists l, t1, s1, _. split; [reflexivity|]. split; [reflexivity|].
        split; [reflexivity|]. split; [by rewrite Af|].
        split; [exact Eend|]. split; [exact Fin|]. split; [exact Kh|].
        split; [exact Kt|]. split; [by rewrite H, D|]. split; [lia|].
        split; [exact Rj|]. split; [|by rewrite H].
        intros Hin. rewrite Pres; [reflexivity|]. intros h Hh. apply Hin.
        by rewrite H.
      * intros FF EE. split; [|by eexists].
        apply (FF1 FF) in EE as [FF' _].
        exact (advances_faultFree _ _ A2 FF').
  - destruct A1 as (Af & Ar & Ad & Ac & _).
    cbn [rng drawn chunksTable filesTable s0] in *.
    repeat (split; [assumption|]). split.
    + right. exists e. split; [reflexivity|]. split; [exact Af|].
      rewrite app_nil_r. exact O1.
    + intros FF EE. destruct (FF1 FF EE) as (_ & l' & [=]).
Qed.

(** ** Fixed-size chunkings *)

Lemma sumLengths_concat cs : sumLengths cs = blen (concat cs).
Proof.
  induction cs as [|c cs IH]; [reflexivity|].
  cbn [sumLengths foldr concat]. fold (sumLengths cs). by rewrite blen_app, IH.
Qed.

Lemma fixedSizeChunking_cons data c cs :
  fixedSizeChunking data (c :: cs) ->
  0 < blen c <= CHUNK_SIZE /\
  (cs <> [] -> blen c = CHUNK_SIZE) /\
  fixedSizeChunking (concat cs) cs.
Proof.
  intros (Ec & Hall & Hfull). split; [exact (Hall 0%nat c eq_refl)|]. split.
  - intros Hne. apply (Hfull 0%nat c eq_refl). destruct cs; [done|cbn; lia].
  - split; [reflexivity|]. split.
    + intros i c' Hc. exact (Hall (S i) c' Hc).
    + intros i c' Hc Hi. apply (Hfull (S i) c' Hc). cbn. lia.
Qed.

(** A byte sequence has at most one fixed-size chunking. *)
Lemma fixedSizeChunking_unique cs1 : forall data cs2,
  fixedSizeChunking data cs1 -> fixedSizeChunking data cs2 -> cs1 = cs2.
Proof.
  induction cs1 as [|c1 r1 IH]; intros data cs2 F1 F2.
  - destruct cs2 as [|c2 r2]; [reflexivity|].
    pose proof F1 as (E1 & _). pose proof F2 as (E2 & _).
    apply fixedSizeChunking_cons in F2 as (Pos2 & _).
    cbn [concat] in E1, E2. rewrite <- E1 in E2. apply app_eq_nil in E2 as [-> _].
    unfold blen in Pos2. cbn in Pos2. lia.
  - pose proof F1 as (E1 & _). pose proof F2 as (E2 & _).
    apply fixedSizeChunking_cons in F1 as (Pos1 & Full1 & Rest1).
    destruct cs2 as [|c2 r2].
    { cbn [concat] in E1, E2. rewrite <- E2 in E1. apply app_eq_nil in E1 as [-> _].
      unfold blen in Pos1. cbn in Pos1. lia. }
    apply fixedSizeChunking_cons in F2 as (Pos2 & Full2 & Rest2).
    cbn [concat] in E1, E2.
    assert (blen data = blen c1 + blen (concat r1)) as L1
      by (by rewrite <- E1, blen_app).
    assert (blen data = blen c2 + blen (concat r2)) as L2
      by (by rewrite <- E2, blen_app).
    assert (forall c r, fixedSizeChunking (concat (c :: r)) (c :: r) ->
                        0 < blen (concat (c :: r))) as Nonempty.
    { intros c r (P & _)%fixedSizeChunking_cons. cbn [concat].
      rewrite blen_app. lia. }
    assert (blen c1 = blen c2) as Elen.
    { destruct r1 as [|c1' r1'], r2 as [|c2' r2'].
      - cbn in L1, L2. unfold blen in L1, L2 |- *. cbn in L1, L2. lia.
      - specialize (Full2 ltac:(done)). apply Nonempty in Rest2.
        change (blen (concat [])) with 0 in L1. lia.
      - specialize (Full1 ltac:(done)). apply Nonempty in Rest1.
        change (blen (concat [])) with 0 in L2. lia.
      - rewrite Full1, Full2; done. }
    assert (c1 = c2 /\ concat r1 = concat r2) as [-> Er].
    { apply app_inj_1; [unfold blen in Elen; lia|congruence]. }
    f_equal. apply (IH (concat r1)); [exact Rest1|]. by rewrite Er.
Qed.

(** The handler always answers: the fuel of the chunk loop never runs out
    and every exception is caught. *)
Lemma upload_replies file s :
  exists r s' t, upload file s = (Ok r, s', t).
Proof.
  destruct file as [file|]; [|by eexists _, _, _].
  destruct (upload (Some file) s) as [[o s'] t] eqn:E.
  apply upload_run in E as (_ & _ & _ & [Good|Bad] & _).
  - destruct Good as (l & tc & s1 & item & -> & _). by eexists _, _, _.
  - destruct Bad as (e & -> & _). by eexists _, _, _.
Qed.

(** ** The chunker *)

(** C4.  Two streams with the same bytes, cut into fragments in any two
    ways and read in any two worlds: whenever both are read to their end, the
    same chunks are cut, the same digests are handed to [ensureChunkStored]
    in the same order, and the same list of chunk hashes is built. *)
Theorem C4_fragmentation_independent rs1 rs2 s1 s2 l1 l2 s1' s2' t1 t2 :
  content rs1 = content rs2 ->
  streamPromise rs1 initially s1 = (Ok l1, s1', t1) ->
  streamPromise rs2 initially s2 = (Ok l2, s2', t2) ->
  emitted t1 = emitted t2 /\
  digests t1 = digests t2 /\
  chunkHashes l1 = chunkHashes l2.
Proof.
  intros Ec (_ & (R1 & Fin1 & _) & _)%streamPromise_run
            (_ & (R2 & Fin2 & _) & _)%streamPromise_run.
  rewrite Ec in Fin1.
  pose proof (fixedSizeChunking_unique _ _ _ Fin1 Fin2) as Eem.
  destruct R1 as (_ & D1 & (H1 & _) & _), R2 as (_ & D2 & (H2 & _) & _).
  cbn [chunkHashes initially app] in H1, H2.
  split; [exact Eem|]. split; [by rewrite D1, D2, Eem|].
  by rewrite H1, H2, D1, D2, Eem.
Qed.

(** ** Manifests and replies *)

(** C5.  After a successful upload the manifest stored under the reply's
    [fileId] carries, as [contentHash], the digest of the bytes of the stream
    concatenated in order, and as [size] the sum of the lengths of the chunks
    in order, which is the length of the stream; both are functions of the
    bytes alone, not of the fragments or the chunk boundaries. *)
Theorem C5_manifest_digest_and_size file s b s' t :
  upload (Some file) s = (Ok (Status200 b), s', t) ->
  exists m,
    filesTable s' !! Reply.fileId b = Some m /\
    FileItem.fileId m = Reply.fileId b /\
    FileItem.contentHash m = sha256Hex (content (readStream file)) /\
    FileItem.size m = sumLengths (emitted t) /\
    FileItem.size m = blen (content (readStream file)) /\
    Reply.size b = FileItem.size m.
Proof.
  intros (_ & _ & _ & [Good|Bad] & _)%upload_run.
  - destruct Good as (l & tc & s1 & item & [= ->] & -> & -> & Ef & _ & Fin & Kh
                      & Kt & _).
    eexists. split; [cbn [Reply.fileId]; rewrite Ef; apply lookup_insert_eq|].
    cbn [FileItem.fileId FileItem.contentHash FileItem.size Reply.size Reply.fileId].
    split; [reflexivity|]. split; [by rewrite Kh|].
    rewrite emitted_app, app_nil_r, sumLengths_concat.
    destruct Fin as (-> & _). by rewrite Kt.
  - by destruct Bad as (e & [=] & _).
Qed.

(** C10.  In the reply of a successful upload, [chunks] is the sum of
    [uploadedNewChunks] and [reusedChunks], and it is the length of the
    chunk-hash list of the manifest that was stored. *)
Theorem C10_counters_add_up file s b s' t :
  upload (Some file) s = (Ok (Status200 b), s', t) ->
  Reply.chunks b = Reply.uploadedNewChunks b + Reply.reusedChunks b /\
  exists m,
    filesTable s' !! Reply.fileId b = Some m /\
    Reply.chunks b = N.of_nat (length (FileItem.chunkHashes m)).
Proof.
  intros (_ & _ & _ & [Good|Bad] & _)%upload_run.
  - destruct Good as (l & tc & s1 & item & [= ->] & -> & -> & Ef & _ & _ & _ & _
                      & Eh & Cn & _).
    cbn [Reply.chunks Reply.uploadedNewChunks Reply.reusedChunks Reply.fileId].
    split.
    + by rewrite Cn, Eh, length_map.
    + eexists. split; [rewrite Ef; apply lookup_insert_eq|reflexivity].
  - by destruct Bad as (e & [=] & _).
Qed.

(** ** New and reused chunks *)

(** C2.  One chunk, in any world in which the index answers the lookup and
    the store accepts the blob if it is written.  The chunk step ends
    normally with the locals tallied for [existed], where [existed] says
    whether the index held the digest when the lookup was served; the digest
    is appended in both cases, a present chunk increments [reusedChunks]
    only and an absent one [uploadedNewChunks] only.  For an absent chunk the
    requests are, in this order, the lookup, the blob written under
    ["chunks/" + digest], and the conditional insert of the item keyed by the
    digest; whatever the insert's fate, also when it is refused because
    another upload's insert came first, the chunk is tallied as new, and a
    lost race leaves the index as the other upload made it. *)
Theorem C2_chunk_step chunk l s :
  let h := sha256Hex chunk in
  let key := "chunks/" +:+ h in
  let s2 := storeObject key chunk (served (served s)) in
  let item := ChunkItem.mk h (blen chunk) key (wallClock s2) in
  fault (upcoming s) = None ->
  (chunksTable (served s) !! h = None -> fault (upcoming (served s)) = None) ->
  exists existed s' t,
    processChunk chunk l s = (Ok (tally existed h l), s', t) /\
    (existed = true <-> is_Some (chunksTable (served s) !! h)) /\
    chunkHashes (tally existed h l) = chunkHashes l ++ [h] /\
    (existed = true ->
       reusedChunks (tally existed h l) = reusedChunks l + 1 /\
       uploadedNewChunks (tally existed h l) = uploadedNewChunks l /\
       t = [Ensure h chunk; Sent (GetItem CHUNKS_TABLE h) None]) /\
    (existed = false ->
       uploadedNewChunks (tally existed h l) = uploadedNewChunks l + 1 /\
       reusedChunks (tally existed h l) = reusedChunks l /\
       s3Bucket s' !! key = Some chunk /\
       exists rej,
         t = [Ensure h chunk; Sent (GetItem CHUNKS_TABLE h) None;
              Sent (PutObject BUCKET_NAME key chunk) None;
              Sent (PutItemIfAbsent CHUNKS_TABLE item) rej] /\
         (rej = None -> chunksTable s' !! h = Some item) /\
         (fault (upcoming s2) = None ->
          is_Some (chunksTable (served s2) !! h) ->
          rej = Some ConditionalCheckFailed /\
          chunksTable s' = chunksTable (served s2))).
Proof.
  intros h key s2 item F1 F2.
  unfold processChunk, bind. fold h. rewrite ensureChunkStored_run. cbv zeta.
  fold key. fold s2. fold item. rewrite F1.
  destruct (chunksTable (served s) !! h) as [rec|] eqn:L1.
  { eexists true, (served s), _. unfold ret. split; [reflexivity|].
    split; [split; [by eexists|reflexivity]|]. split; [reflexivity|].
    split; [by intros _|discriminate]. }
  rewrite (F2 eq_refl).
  assert (s3Bucket (served s2) !! key = Some chunk) as Hblob.
  { unfold served. destruct (schedule s2); cbn [s3Bucket s2 storeObject];
      apply lookup_insert_eq. }
  assert (forall X : Prop, (false = true <-> X) <-> ~ X) as Hiff
    by (intros X; split; [intros [_ H] x; by apply H in x|by split]).
  destruct (fault (upcoming s2)) as [err|] eqn:F3.
  { eexists false, (served s2), _. unfold ret. split; [reflexivity|].
    split; [apply Hiff; by intros [? ?]|]. split; [reflexivity|].
    split; [discriminate|]. intros _. split; [reflexivity|].
    split; [reflexivity|]. split; [exact Hblob|]. eexists.
    split; [reflexivity|]. split; [discriminate|]. discriminate. }
  destruct (chunksTable (served s2) !! h) as [rec|] eqn:L3.
  { eexists false, (served s2), _. unfold ret. split; [reflexivity|].
    split; [apply Hiff; by intros [? ?]|]. split; [reflexivity|].
    split; [discriminate|]. intros _. split; [reflexivity|].
    split; [reflexivity|]. split; [exact Hblob|]. eexists.
    split; [reflexivity|]. split; [discriminate|]. by intros _ _. }
  eexists false, (storeChunkItem item (served s2)), _. unfold ret.
  split; [reflexivity|].
  split; [apply Hiff; by intros [? ?]|]. split; [reflexivity|].
  split; [discriminate|]. intros _. split; [reflexivity|].
  split; [reflexivity|]. split; [exact Hblob|]. eexists.
  split; [reflexivity|]. split.
  - intros _. cbn [chunksTable storeChunkItem ChunkItem.hash item].
    apply lookup_insert_eq.
  - intros _ [? ?]. discriminate.
Qed.

(** C9.  When the lookup is answered with an item, the chunk step sends
    nothing else: its history is the entry into [ensureChunkStored] and the
    lookup, with no write to the store and no write to the index; the bucket
    is unchanged and the index is what the lookup was served from.  The
    locals change by one more reused chunk and the appended digest. *)
Theorem C9_present_chunk_writes_nothing chunk l s rec :
  let h := sha256Hex chunk in
  fault (upcoming s) = None ->
  chunksTable (served s) !! h = Some rec ->
  exists s' t,
    processChunk chunk l s = (Ok (tally true h l), s', t) /\
    t = [Ensure h chunk; Sent (GetItem CHUNKS_TABLE h) None] /\
    Forall (fun ev => isStoreWrite ev = false /\ isIndexWrite ev = false) t /\
    s3Bucket s' = s3Bucket s /\
    chunksTable s' = chunksTable (served s) /\
    filesTable s' = filesTable s /\
    reusedChunks (tally true h l) = reusedChunks l + 1 /\
    uploadedNewChunks (tally true h l) = uploadedNewChunks l /\
    chunkHashes (tally true h l) = chunkHashes l ++ [h].
Proof.
  intros h F1 L1.
  unfold processChunk, bind. fold h. rewrite ensureChunkStored_run. cbv zeta.
  rewrite F1, L1. eexists (served s), _. unfold ret.
  split; [reflexivity|]. split; [reflexivity|].
  split; [repeat constructor|].
  split; [|split; [reflexivity|]].
  - unfold served. by destruct (schedule s).
  - split; [|by repeat split].
    unfold served. by destruct (schedule s).
Qed.

(** ** Boundary: the empty stream *)

Lemma deliver_empty frags s :
  concat frags = [] -> deliver frags initially s = (Ok initially, s, []).
Proof.
  induction frags as [|data frags IH]; cbn [concat deliver]; [reflexivity|].
  intros [-> E]%app_eq_nil. unfold bind.
  change (onData [] initially s) with (@Ok Locals initially, s, @nil Event).
  cbv beta iota. by rewrite (IH E).
Qed.

(** C8.  A stream without bytes that ends normally, when the [files] table
    accepts the write: no chunk is cut, the reply is a 200 with [chunks] and
    [size] zero, and the manifest is stored under the reply's id with an
    empty chunk list, size zero and the digest of the empty byte sequence. *)
Theorem C8_empty_stream file s :
  content (readStream file) = [] ->
  ending (readStream file) = EndOfFile ->
  fault (upcoming s) = None ->
  exists b m s' t,
    upload (Some file) s = (Ok (Status200 b), s', t) /\
    emitted t = [] /\
    Reply.chunks b = 0 /\
    Reply.size b = 0 /\
    Reply.uploadedNewChunks b = 0 /\
    Reply.reusedChunks b = 0 /\
    filesTable s' !! Reply.fileId b = Some m /\
    FileItem.chunkHashes m = [] /\
    FileItem.size m = 0 /\
    FileItem.contentHash m = sha256Hex [] /\
    t = [Sent (PutItem FILES_TABLE m) None].
Proof.
  intros Hempty Eend F. cbn [upload]. unfold bind at 1. rewrite randomUUID_run.
  set (s0 := mkSys _ _ _ _ _ _ _).
  unfold tryCatch, bind at 1, streamPromise, bind at 1.
  rewrite (deliver_empty _ _ Hempty), Eend.
  change (onEnd initially s0) with (@ret Locals initially s0). unfold ret at 1.
  unfold bind. rewrite putFileManifest_run. cbv zeta.
  change (fault (upcoming s0)) with (fault (upcoming s)). rewrite F.
  unfold ret. cbn [app]. eexists _, _, _, _. split; [reflexivity|].
  cbn [Reply.chunks Reply.size Reply.fileId Reply.uploadedNewChunks
       Reply.reusedChunks FileItem.chunkHashes FileItem.size
       FileItem.contentHash initially chunkHashes totalBytes contentHasher
       uploadedNewChunks reusedChunks length].
  split; [reflexivity|]. split; [reflexivity|]. split; [reflexivity|].
  split; [reflexivity|]. split; [reflexivity|].
  split; [|by repeat split].
  cbn [filesTable storeFileItem FileItem.fileId]. apply lookup_insert_eq.
Qed.

(** ** Uploading the same bytes twice *)

(** C7.  Two uploads of the same bytes, one after the other, with a UUID
    generator that never repeats a value.  If the first upload succeeded, the
    index holds every digest that the first upload met, and no request of the
    second upload is rejected, then the second upload succeeds too; both
    manifests are in the [files] table, under different ids, with the same
    chunk-hash list and the same content hash; and the second reply counts
    every chunk as reused and none as new. *)
Theorem C7_same_bytes_twice file1 file2 s b1 s1 t1 o2 s2 t2 :
  Inj (=) (=) (rng s) ->
  content (readStream file1) = content (readStream file2) ->
  ending (readStream file2) = EndOfFile ->
  upload (Some file1) s = (Ok (Status200 b1), s1, t1) ->
  (forall h, h ∈ digests t1 -> is_Some (chunksTable s1 !! h)) ->
  faultFree (schedule s1) ->
  upload (Some file2) s1 = (o2, s2, t2) ->
  exists b2 m1 m2,
    o2 = Ok (Status200 b2) /\
    filesTable s2 !! Reply.fileId b1 = Some m1 /\
    filesTable s2 !! Reply.fileId b2 = Some m2 /\
    FileItem.fileId m1 = Reply.fileId b1 /\
    FileItem.fileId m2 = Reply.fileId b2 /\
    FileItem.chunkHashes m1 = FileItem.chunkHashes m2 /\
    FileItem.contentHash m1 = FileItem.contentHash m2 /\
    FileItem.fileId m1 <> FileItem.fileId m2 /\
    Reply.reusedChunks b2 = Reply.chunks b2 /\
    Reply.uploadedNewChunks b2 = 0.
Proof.
  intros Hinj Ec Eend2 (Er1 & Ed1 & _ & [Good1|Bad1] & _)%upload_run Hidx FF
         (_ & _ & _ & [Good2|Bad2] & Succ2)%upload_run;
    [| |by destruct Bad1 as (e & [=] & _)..].
  2: { destruct (Succ2 FF Eend2) as (_ & b & ->).
       by destruct Bad2 as (e & [=] & _). }
  destruct Good1 as (l1 & tc1 & w1 & item1 & [= ->] & -> & -> & Ef1 & _ & Fin1
                     & Kh1 & _ & Eh1 & _ & _ & _ & Ed).
  destruct Good2 as (l2 & tc2 & w2 & item2 & -> & -> & -> & Ef2 & _ & Fin2
                     & Kh2 & _ & Eh2 & Cn2 & _ & Pres2 & _).
  rewrite Ec in Fin1.
  pose proof (fixedSizeChunking_unique _ _ _ Fin1 Fin2) as Eem.
  assert (chunkHashes l1 = chunkHashes l2) as Ehash by (by rewrite Eh1, Eh2, Eem).
  assert (rng s (drawn s) <> rng s1 (drawn s1)) as Hne.
  { rewrite Er1, Ed1. intros E%Hinj. lia. }
  eexists _, _, _. split; [reflexivity|].
  cbn [Reply.fileId Reply.reusedChunks Reply.chunks Reply.uploadedNewChunks].
  split; [rewrite Ef2, lookup_insert_ne, Ef1 by (by apply not_eq_sym);
          apply lookup_insert_eq|].
  split; [rewrite Ef2; apply lookup_insert_eq|].
  cbn [FileItem.fileId FileItem.chunkHashes FileItem.contentHash].
  split; [reflexivity|]. split; [reflexivity|].
  split; [exact Ehash|]. split; [by rewrite Kh1, Kh2, Ec|].
  split; [exact Hne|].
  assert (uploadedNewChunks l2 = 0) as Enew.
  { apply Pres2. intros h Hh. apply Hidx.
    rewrite digests_app, app_nil_r, Ed. by rewrite Ehash. }
  split; [|exact Enew].
  rewrite Eh2, length_map. lia.
Qed.

(** ** Lifting a property of one chunk to the whole stream *)

Lemma sameTally_refl l : sameTally l l.
Proof. by split. Qed.

Lemma drain_stuck l :
  CHUNK_SIZE <= blen (buffered l) -> drain 0 l = stuck.
Proof. intros H%N.leb_le. cbn [drain]. by rewrite H. Qed.

Section Lifting.

(** [R l s o s' t]: chunk processing that starts with locals [l] in world
    [s] may end with outcome [o] in world [s'] after the history [t]. *)
Variable R : Locals -> Sys -> Outcome Locals -> Sys -> list Event -> Prop.

Hypothesis R_ret : forall l l' s, sameTally l l' -> R l s (Ok l') s [].
Hypothesis R_stop : forall l s o, (forall l', o <> Ok l') -> R l s o s [].
Hypothesis R_seq : forall l s l1 s1 t1 l1' o s2 t2,
  R l s (Ok l1) s1 t1 -> sameTally l1 l1' -> R l1' s1 o s2 t2 ->
  R l s o s2 (t1 ++ t2).
Hypothesis R_chunk : forall chunk l s o s' t,
  processChunk chunk l s = (o, s', t) -> R l s o s' t.

Lemma lift_from l0 l s o s' t :
  sameTally l0 l -> R l s o s' t -> R l0 s o s' t.
Proof.
  intros E H.
  exact (R_seq l0 s l0 s [] l o s' t (R_ret l0 l0 s (sameTally_refl l0)) E H).
Qed.

Lemma lift_bind (m : M Locals) (k : Locals -> M Locals) l s o s' t :
  (forall o1 s1 t1, m s = (o1, s1, t1) -> R l s o1 s1 t1) ->
  (forall l1 s1 o2 s2 t2, k l1 s1 = (o2, s2, t2) -> R l1 s1 o2 s2 t2) ->
  bind m k s = (o, s', t) -> R l s o s' t.
Proof.
  intros Hm Hk. unfold bind.
  destruct (m s) as [[o1 s1] t1] eqn:E1. specialize (Hm _ _ _ eq_refl).
  destruct o1 as [l1|e|].
  - destruct (k l1 s1) as [[o2 s2] t2] eqn:E2. intros [= <- <- <-].
    exact (R_seq _ _ _ _ _ _ _ _ _ Hm (sameTally_refl l1) (Hk _ _ _ _ _ E2)).
  - by intros [= <- <- <-].
  - by intros [= <- <- <-].
Qed.

Lemma drain_lift fuel : forall l s o s' t,
  drain fuel l s = (o, s', t) -> R l s o s' t.
Proof.
  induction fuel as [|fuel IH]; intros l s o s' t;
    destruct (N.le_gt_cases CHUNK_SIZE (blen (buffered l))) as [Hge|Hlt].
  - rewrite (drain_stuck _ Hge). intros [= <- <- <-]. by apply R_stop.
  - rewrite (drain_below _ _ Hlt). intros [= <- <- <-].
    apply R_ret, sameTally_refl.
  - rewrite (drain_above _ _ Hge). apply lift_bind; [|exact IH].
    intros o1 s1 t1 E1. apply R_chunk in E1.
    revert E1. apply lift_from. by split.
  - rewrite (drain_below _ _ Hlt). intros [= <- <- <-].
    apply R_ret, sameTally_refl.
Qed.

Lemma onData_lift data l s o s' t :
  onData data l s = (o, s', t) -> R l s o s' t.
Proof.
  unfold onData. intros E%drain_lift. revert E. apply lift_from. by split.
Qed.

Lemma deliver_lift frags : forall l s o s' t,
  deliver frags l s = (o, s', t) -> R l s o s' t.
Proof.
  induction frags as [|data frags IH]; intros l s o s' t; cbn [deliver].
  - intros [= <- <- <-]. apply R_ret, sameTally_refl.
  - apply lift_bind; [|exact IH]. intros o1 s1 t1. apply onData_lift.
Qed.

Lemma onEnd_lift l s o s' t :
  onEnd l s = (o, s', t) -> R l s o s' t.
Proof.
  unfold onEnd. destruct (0 <? blen (buffered l)).
  - apply R_chunk.
  - intros [= <- <- <-]. apply R_ret, sameTally_refl.
Qed.

(** What holds of every chunk, composes and holds of doing nothing, holds
    of the stream promise. *)
Lemma streamPromise_lift rs l s o s' t :
  streamPromise rs l s = (o, s', t) -> R l s o s' t.
Proof.
  unfold streamPromise. apply lift_bind.
  - intros o1 s1 t1. apply deliver_lift.
  - intros l1 s1 o2 s2 t2. destruct (ending rs).
    + apply onEnd_lift.
    + intros [= <- <- <-]. by apply R_stop.
Qed.

End Lifting.

(** The upload handler as the stream promise followed by the write of the
    manifest. *)
Lemma upload_unfold file s :
  upload (Some file) s =
  let fileId := rng s (drawn s) in
  match streamPromise (readStream file) initially (afterDraw s) with
  | (Ok l, s1, t1) =>
      let item := FileItem.mk fileId (originalname file) (totalBytes l)
                              (wallClock s1) (digest (contentHasher l))
                              (chunkHashes l) in
      match fault (upcoming s1) with
      | Some err =>
          (Ok (Status500 ("Error processing file: " +:+ message err)), served s1,
           t1 ++ [Sent (PutItem FILES_TABLE item) (Some err)])
      | None =>
          (Ok (Status200
                 (Reply.mk "File processed with chunk-level deduplication."
                           fileId (originalname file) (totalBytes l)
                           (N.of_nat (length (chunkHashes l)))
                           (uploadedNewChunks l) (reusedChunks l))),
           storeFileItem item (served s1),
           t1 ++ [Sent (PutItem FILES_TABLE item) None])
      end
  | (Throw e, s1, t1) =>
      (Ok (Status500 ("Error processing file: " +:+ message e)), s1, t1)
  | (Stuck, s1, t1) => (Stuck, s1, t1)
  end.
Proof.
  cbn [upload]. unfold bind at 1. rewrite randomUUID_run. fold (afterDraw s).
  unfold tryCatch, bind at 1. cbv zeta.
  destruct (streamPromise (readStream file) initially (afterDraw s))
    as [[[l|e|] s1] t1]; [|unfold ret; by rewrite !app_nil_r|reflexivity].
  unfold bind. rewrite putFileManifest_run. cbv zeta.
  destruct (fault (upcoming s1)); unfold ret; cbn [app]; by rewrite ?app_nil_r.
Qed.

(** ** Further statements: failures and success *)

(** X1.  If the index rejects a lookup, the reply is a 500 that carries the
    message of one error, and the [files] table is left as it was. *)
Theorem X1_lookup_failure_aborts file s o s' t :
  upload (Some file) s = (o, s', t) ->
  (exists tbl h e, Sent (GetItem tbl h) (Some e) ∈ t) ->
  (exists e, o = Ok (Status500 ("Error processing file: " +:+ message e))) /\
  filesTable s' = filesTable s.
Proof.
  intros (_ & _ & _ & [Good|Bad] & _)%upload_run (tbl & h & e & Hin).
  - exfalso.
    destruct Good as (l & tc & s1 & item & _ & _ & -> & _ & _ & _ & _ & _ & _
                      & _ & Rj & _).
    rewrite Forall_forall in Rj.
    apply elem_of_app in Hin as [Hin|Hin%list_elem_of_singleton];
      [by apply Rj in Hin|discriminate].
  - destruct Bad as (e' & -> & Ef & _). split; [by exists e'|exact Ef].
Qed.

(** X3.  If no request of the schedule is rejected and the stream ends
    normally, the upload succeeds, its manifest is stored, the index holds an
    item for every chunk hash of the manifest, and the rest of the schedule is
    still free of rejections. *)
Theorem X3_quiet_upload_succeeds file s :
  faultFree (schedule s) ->
  ending (readStream file) = EndOfFile ->
  exists b m s' t,
    upload (Some file) s = (Ok (Status200 b), s', t) /\
    filesTable s' !! Reply.fileId b = Some m /\
    FileItem.fileId m = Reply.fileId b /\
    (forall h, h ∈ FileItem.chunkHashes m -> is_Some (chunksTable s' !! h)) /\
    faultFree (schedule s').
Proof.
  intros FF Eend. rewrite upload_unfold. cbv zeta.
  destruct (streamPromise (readStream file) initially (afterDraw s))
    as [[o1 s1] t1] eqn:E1.
  apply streamPromise_run in E1 as (_ & O1 & Succ).
  destruct (Succ FF Eend) as (FF1 & l & ->).
  destruct O1 as ((_ & _ & (H & _ & _ & _ & Idx) & _) & _).
  cbn [chunkHashes initially app] in H.
  rewrite (faultFree_upcoming _ FF1).
  eexists _, _, _, _. split; [reflexivity|].
  cbn [Reply.fileId filesTable storeFileItem FileItem.fileId
       FileItem.chunkHashes chunksTable schedule].
  split; [apply lookup_insert_eq|]. split; [reflexivity|]. split.
  - intros h Hh. apply (advances_is_Some _ _ _ (advances_served s1)).
    apply (Idx FF). by rewrite <- H.
  - exact (advances_faultFree _ _ (advances_served s1) FF1).
Qed.

(** X4.  A 200 reply means that the stream ended normally and that every
    lookup, every blob write and the manifest write were accepted: a
    rejection in the history of a successful upload is the rejection of a
    conditional insert, and the last request is the accepted manifest write. *)
Theorem X4_success_means_accepted file s b s' t :
  upload (Some file) s = (Ok (Status200 b), s', t) ->
  ending (readStream file) = EndOfFile /\
  (forall c e, Sent c (Some e) ∈ t -> isIndexWrite (Sent c (Some e)) = true) /\
  exists m, last t = Some (Sent (PutItem FILES_TABLE m) None) /\
            filesTable s' !! Reply.fileId b = Some m.
Proof.
  intros (_ & _ & _ & [Good|Bad] & _)%upload_run.
  - destruct Good as (l & tc & s1 & item & [= ->] & _ & -> & Ef & Eend & _ & _
                      & _ & _ & _ & Rj & _).
    split; [exact Eend|]. split.
    + intros c e [Hin|Hin%list_elem_of_singleton]%elem_of_app; [|discriminate].
      rewrite Forall_forall in Rj. apply Rj in Hin. by destruct c.
    + exists item. split; [apply last_snoc|].
      cbn [Reply.fileId]. rewrite Ef. apply lookup_insert_eq.
  - by destruct Bad as (e & [=] & _).
Qed.

(** X5.  Whatever the outcome of an upload, every item that the index held
    before is still there, unchanged: the handler never deletes or overwrites
    an index item. *)
Theorem X5_index_only_grows file s o s' t h item :
  upload file s = (o, s', t) ->
  chunksTable s !! h = Some item ->
  chunksTable s' !! h = Some item.
Proof.
  destruct file as [file|].
  - intros (_ & _ & Sub & _)%upload_run Hh.
    exact (lookup_weaken _ _ _ _ Hh Sub).
  - by intros [= <- <- <-].
Qed.

(** X6.  An upload with a file draws exactly one UUID, and whatever its
    outcome it leaves the manifests stored under every other id as they
    were. *)
Theorem X6_other_manifests_untouched file s o s' t id :
  upload (Some file) s = (o, s', t) ->
  id <> rng s (drawn s) ->
  drawn s' = S (drawn s) /\
  filesTable s' !! id = filesTable s !! id.
Proof.
  intros (_ & Ed & _ & [Good|Bad] & _)%upload_run Hne.
  - destruct Good as (l & tc & s1 & item & _ & _ & _ & Ef & _).
    split; [exact Ed|]. rewrite Ef. by apply lookup_insert_ne.
  - destruct Bad as (e & _ & Ef & _). split; [exact Ed|]. by rewrite Ef.
Qed.

(** ** Further statements: what is written, and where *)

Lemma s3Bucket_served s : s3Bucket (served s) = s3Bucket s.
Proof. unfold served. by destruct (schedule s). Qed.

Lemma blobKey_inj h h' : blobKey h = blobKey h' -> h = h'.
Proof. unfold blobKey. intros H. cbn in H. by injection H. Qed.

(** The four ways in which the processing of one chunk can go. *)
Lemma processChunk_cases chunk l s o s' t :
  processChunk chunk l s = (o, s', t) ->
  let h := sha256Hex chunk in
  let s2 := storeObject (blobKey h) chunk (served (served s)) in
  let item := ChunkItem.mk h (blen chunk) (blobKey h) (wallClock s2) in
  (exists e, o = Throw e /\ s' = served s /\
     t = [Ensure h chunk; Sent (GetItem CHUNKS_TABLE h) (Some e)]) \/
  (o = Ok (tally true h l) /\ s' = served s /\
     is_Some (chunksTable (served s) !! h) /\
     t = [Ensure h chunk; Sent (GetItem CHUNKS_TABLE h) None]) \/
  (exists e, o = Throw e /\ s' = served (served s) /\
     t = [Ensure h chunk; Sent (GetItem CHUNKS_TABLE h) None;
          Sent (PutObject BUCKET_NAME (blobKey h) chunk) (Some e)]) \/
  (exists rej, o = Ok (tally false h l) /\
     (s' = served s2 \/ s' = storeChunkItem item (served s2)) /\
     t = [Ensure h chunk; Sent (GetItem CHUNKS_TABLE h) None;
          Sent (PutObject BUCKET_NAME (blobKey h) chunk) None;
          Sent (PutItemIfAbsent CHUNKS_TABLE item) rej]).
Proof.
  unfold processChunk, bind. rewrite ensureChunkStored_run. cbv zeta.
  fold (blobKey (sha256Hex chunk)).
  destruct (fault (upcoming s)) as [e|].
  { intros [= <- <- <-]. left. by exists e. }
  destruct (chunksTable (served s) !! sha256Hex chunk) as [rec|] eqn:L1.
  { unfold ret. intros [= <- <- <-]. right; left. split_and!; eauto. }
  destruct (fault (upcoming (served s))) as [e|].
  { intros [= <- <- <-]. right; right; left. by exists e. }
  destruct (fault (upcoming _)) as [e|].
  { unfold ret. intros [= <- <- <-]. right; right; right. eexists.
    split; [reflexivity|]. split; [|reflexivity]. by left. }
  clear L1. destruct (chunksTable (served _) !! sha256Hex chunk).
  { unfold ret. intros [= <- <- <-]. right; right; right. eexists.
    split; [reflexivity|]. split; [|reflexivity]. by left. }
  unfold ret. intros [= <- <- <-]. right; right; right. eexists.
  split; [reflexivity|]. split; [|reflexivity]. by right.
Qed.

Lemma blobStored_storeObject s h chunk h' :
  sha256Hex chunk = h ->
  blobStored s h' -> blobStored (storeObject (blobKey h) chunk s) h'.
Proof.
  intros Eh (body & Hb & Hd). unfold blobStored. cbn [s3Bucket storeObject].
  destruct (decide (blobKey h = blobKey h')) as [E|Hne].
  - rewrite <- E, lookup_insert_eq. exists chunk. split; [done|].
    apply blobKey_inj in E. congruence.
  - rewrite lookup_insert_ne by done. by exists body.
Qed.

Lemma blobStored_same s s' h :
  s3Bucket s' = s3Bucket s -> blobStored s h -> blobStored s' h.
Proof. unfold blobStored. by intros ->. Qed.

(** X9.  After a successful upload every chunk hash of the stored manifest
    is backed: the index holds an item for it, or the bucket holds under its
    key a blob with that digest.  This holds also when conditional inserts
    were rejected. *)
Theorem X9_manifest_is_backed file s b s' t :
  upload (Some file) s = (Ok (Status200 b), s', t) ->
  exists m,
    filesTable s' !! Reply.fileId b = Some m /\
    forall h, h ∈ FileItem.chunkHashes m ->
      is_Some (chunksTable s' !! h) \/ blobStored s' h.
Proof.
  set (R := fun (_ : Locals) (s : Sys) (o : Outcome Locals) (s' : Sys)
                (t : list Event) =>
    advances s s' /\
    (forall h, blobStored s h -> blobStored s' h) /\
    match o with
    | Ok _ => forall h, h ∈ digests t ->
                is_Some (chunksTable s' !! h) \/ blobStored s' h
    | _ => True
    end).
  assert (forall l rs s o s' t,
            streamPromise rs l s = (o, s', t) -> R l s o s' t) as Rstream.
  { intros l rs s0 o0 s0' t0. apply (streamPromise_lift R); clear.
    - intros l l' s _. split; [apply advances_refl|]. split; [done|].
      intros h Hh. by apply elem_of_nil in Hh.
    - intros l s o Ho. split; [apply advances_refl|]. split; [done|].
      destruct o as [l'| |]; [by destruct (Ho l')|done..].
    - intros l s l1 s1 t1 l1' o s2 t2 (A1 & K1 & B1) _ (A2 & K2 & B2).
      split; [exact (advances_trans _ _ _ A1 A2)|]. split; [auto|].
      destruct o as [l2| |]; [|done..].
      intros h. rewrite digests_app. intros [Hh|Hh]%elem_of_app; [|auto].
      destruct (B1 h Hh) as [Hi|Hb]; [left|right; auto].
      exact (advances_is_Some _ _ _ A2 Hi).
    - intros chunk l s o s' t E. pose proof E as (A & _)%processChunk_run.
      destruct A as (A & _). apply processChunk_cases in E. cbv zeta in E.
      split; [exact A|].
      destruct E as [(e & -> & -> & _)|[(-> & -> & Hin & ->)|[(e & -> & -> & _)
                     |(rej & -> & Hs & ->)]]].
      + split; [|done]. intros h. apply blobStored_same, s3Bucket_served.
      + split; [intros h; apply blobStored_same, s3Bucket_served|].
        intros h ->%list_elem_of_singleton. by left.
      + split; [|done]. intros h. apply blobStored_same.
        by rewrite !s3Bucket_served.
      + assert (forall h, blobStored s h -> blobStored s' h) as Keep.
        { intros h Hb.
          assert (blobStored (storeObject (blobKey (sha256Hex chunk)) chunk
                                (served (served s))) h) as Hb2.
          { apply blobStored_storeObject; [done|].
            revert Hb. apply blobStored_same. by rewrite !s3Bucket_served. }
          revert Hb2. apply blobStored_same.
          destruct Hs as [-> | ->]; cbn [s3Bucket storeChunkItem];
            by rewrite s3Bucket_served. }
        split; [exact Keep|].
        intros h ->%list_elem_of_singleton. right.
        exists chunk. split; [|done].
        destruct Hs as [-> | ->]; cbn [s3Bucket storeChunkItem];
          rewrite s3Bucket_served; cbn [s3Bucket storeObject];
          apply lookup_insert_eq. }
  rewrite upload_unfold. cbv zeta.
  destruct (streamPromise (readStream file) initially (afterDraw s))
    as [[[l|e|] s1] t1] eqn:E1; [|discriminate..].
  pose proof (Rstream _ _ _ _ _ _ E1) as (_ & _ & Backed).
  apply streamPromise_run in E1 as (_ & ((_ & _ & (H & _) & _) & _) & _).
  cbn [chunkHashes initially app] in H.
  destruct (fault (upcoming s1)); intros [= <- <- <-].
  eexists. cbn [Reply.fileId filesTable storeFileItem FileItem.fileId].
  split; [apply lookup_insert_eq|].
  cbn [FileItem.chunkHashes chunksTable]. intros h Hh. rewrite H in Hh.
  destruct (Backed h Hh) as [Hi|Hb]; [left|right].
  - exact (advances_is_Some _ _ _ (advances_served s1) Hi).
  - revert Hb. apply blobStored_same. cbn [s3Bucket storeFileItem].
    apply s3Bucket_served.
Qed.

(** ** Further statements: counting *)

Lemma countEvents_app p t1 t2 :
  countEvents p (t1 ++ t2) = countEvents p t1 + countEvents p t2.
Proof. unfold countEvents. rewrite List.filter_app, length_app. lia. Qed.

(** X10.  In a successful upload the reply's [chunks] is the number of
    lookups sent, [uploadedNewChunks] is the number of blob writes sent, which
    is also the number of conditional inserts sent, and [reusedChunks] is the
    number of lookups that were not followed by a blob write. *)
Theorem X10_counters_count_requests file s b s' t :
  upload (Some file) s = (Ok (Status200 b), s', t) ->
  Reply.chunks b = countEvents isLookup t /\
  Reply.uploadedNewChunks b = countEvents isStoreWrite t /\
  countEvents isIndexWrite t = countEvents isStoreWrite t /\
  Reply.reusedChunks b + countEvents isStoreWrite t = countEvents isLookup t.
Proof.
  set (R := fun (l : Locals) (_ : Sys) (o : Outcome Locals) (_ : Sys)
                (t : list Event) =>
    match o with
    | Ok l' =>
        N.of_nat (length (chunkHashes l')) =
          N.of_nat (length (chunkHashes l)) + countEvents isLookup t /\
        uploadedNewChunks l' = uploadedNewChunks l + countEvents isStoreWrite t /\
        countEvents isIndexWrite t = countEvents isStoreWrite t /\
        reusedChunks l' + countEvents isStoreWrite t =
          reusedChunks l + countEvents isLookup t
    | _ => True
    end).
  assert (forall l rs s o s' t,
            streamPromise rs l s = (o, s', t) -> R l s o s' t) as Rstream.
  { intros l rs s0 o0 s0' t0. apply (streamPromise_lift R); clear.
    - intros l l' s (E1 & E2 & E3). unfold R, countEvents. cbn.
      rewrite E1, E2, E3. lia.
    - intros l s o Ho. destruct o as [l'| |]; [by destruct (Ho l')|done..].
    - intros l s l1 s1 t1 l1' o s2 t2 H1 (E1 & E2 & E3) H2.
      destruct o as [l2| |]; [|done..]. unfold R in *.
      rewrite !countEvents_app. rewrite <- E1, <- E2, <- E3 in H2. lia.
    - intros chunk l s o s' t Cases%processChunk_cases. cbv zeta in Cases.
      destruct Cases as [(e & -> & _)|[(-> & _ & _ & ->)|[(e & -> & _)
                         |(rej & -> & _ & ->)]]]; try done;
        unfold R, countEvents; cbn; rewrite length_app; cbn; lia. }
  rewrite upload_unfold. cbv zeta.
  destruct (streamPromise (readStream file) initially (afterDraw s))
    as [[[l|e|] s1] t1] eqn:E1; [|discriminate..].
  apply Rstream in E1. unfold R in E1. cbn [initially chunkHashes length
    uploadedNewChunks reusedChunks] in E1.
  destruct (fault (upcoming s1)); intros [= <- <- <-].
  cbn [Reply.chunks Reply.uploadedNewChunks Reply.reusedChunks].
  rewrite !countEvents_app. unfold countEvents at 2 4 6 8 10 12. cbn. lia.
Qed.

Lemma chunksNeeded_zero : chunksNeeded 0 = 0.
Proof.
  pose proof CHUNK_SIZE_pos. unfold chunksNeeded. apply N.div_small. lia.
Qed.

Lemma chunksNeeded_one n : 0 < n <= CHUNK_SIZE -> chunksNeeded n = 1.
Proof.
  intros Hn. unfold chunksNeeded. symmetry.
  apply (N.div_unique _ _ 1 (n - 1)); lia.
Qed.

Lemma chunksNeeded_more n : chunksNeeded (CHUNK_SIZE + n) = 1 + chunksNeeded n.
Proof.
  pose proof CHUNK_SIZE_pos. unfold chunksNeeded.
  replace (CHUNK_SIZE + n + CHUNK_SIZE - 1)
    with (1 * CHUNK_SIZE + (n + CHUNK_SIZE - 1)) by lia.
  apply N.div_add_l. lia.
Qed.

(** A fixed-size chunking of [n] bytes has [n / CHUNK_SIZE] chunks, rounded
    up. *)
Lemma fixedSizeChunking_length cs : forall data,
  fixedSizeChunking data cs -> N.of_nat (length cs) = chunksNeeded (blen data).
Proof.
  induction cs as [|c r IH]; intros data F.
  - destruct F as (<- & _). change (blen (concat [])) with 0.
    by rewrite chunksNeeded_zero.
  - pose proof F as (<- & _).
    apply fixedSizeChunking_cons in F as (Pos & Full & Rest).
    specialize (IH _ Rest). cbn [concat length]. rewrite blen_app.
    destruct r as [|c' r'].
    + cbn [concat]. change (blen []) with 0. rewrite N.add_0_r.
      by rewrite (chunksNeeded_one _ Pos).
    + rewrite (Full ltac:(done)), chunksNeeded_more, <- IH. lia.
Qed.

(** X11.  In a successful upload the number of chunks is the size of the
    file divided by [CHUNK_SIZE], rounded up: the reply's [chunks] and the
    length of the manifest's chunk-hash list are [chunksNeeded] of the
    reply's [size]. *)
Theorem X11_chunk_count file s b s' t :
  upload (Some file) s = (Ok (Status200 b), s', t) ->
  Reply.size b = blen (content (readStream file)) /\
  Reply.chunks b = chunksNeeded (Reply.size b) /\
  exists m,
    filesTable s' !! Reply.fileId b = Some m /\
    N.of_nat (length (FileItem.chunkHashes m)) = chunksNeeded (FileItem.size m).
Proof.
  intros (_ & _ & _ & [Good|Bad] & _)%upload_run.
  - destruct Good as (l & tc & s1 & item & [= ->] & -> & _ & Ef & _ & Fin & _
                      & Kt & Eh & _).
    cbn [Reply.size Reply.chunks Reply.fileId].
    assert (N.of_nat (length (chunkHashes l)) = chunksNeeded (totalBytes l)) as E
      by (by rewrite Eh, length_map, Kt, (fixedSizeChunking_length _ _ Fin)).
    split; [exact Kt|]. split; [exact E|].
    eexists. split; [rewrite Ef; apply lookup_insert_eq|exact E].
  - by destruct Bad as (e & [=] & _).
Qed.

Lemma sliceAt_take_drop data i :
  sliceAt data i =
  take (N.to_nat CHUNK_SIZE) (drop (i * N.to_nat CHUNK_SIZE) data).
Proof.
  unfold sliceAt, subarray. f_equal; [|f_equal]; lia.
Qed.

(** The chunks of a fixed-size chunking are the consecutive slices of
    [CHUNK_SIZE] bytes of the data. *)
Lemma fixedSizeChunking_slices cs : forall data i c,
  fixedSizeChunking data cs -> cs !! i = Some c -> c = sliceAt data i.
Proof.
  induction cs as [|c0 r IH]; intros data i c F Hc; [done|].
  pose proof F as (<- & _).
  apply fixedSizeChunking_cons in F as (Pos & Full & Rest).
  rewrite sliceAt_take_drop. cbn [concat]. destruct i as [|j].
  - injection Hc as <-. rewrite Nat.mul_0_l, drop_0.
    destruct r as [|c' r'].
    + cbn [concat]. rewrite app_nil_r, take_ge; [done|]. unfold blen in Pos. lia.
    + specialize (Full ltac:(done)). rewrite take_app_length'; [done|].
      unfold blen in Full. lia.
  - cbn [lookup list_lookup] in Hc.
    assert (r <> []) as Hne by (by destruct r).
    specialize (Full Hne).
    rewrite (IH _ _ _ Rest Hc), sliceAt_take_drop. f_equal.
    replace (S j * N.to_nat CHUNK_SIZE)%nat
      with (length c0 + j * N.to_nat CHUNK_SIZE)%nat
      by (unfold blen in Full; lia).
    by rewrite drop_app_add.
Qed.

(** X12.  In the manifest of a successful upload the hash at position [i]
    is the digest of the bytes of the file from offset [i * CHUNK_SIZE] up to
    offset [(i + 1) * CHUNK_SIZE], or up to the end of the file for the last
    chunk: chunk boundaries are byte offsets that depend on nothing else. *)
Theorem X12_manifest_hashes_are_slice_digests file s b s' t :
  upload (Some file) s = (Ok (Status200 b), s', t) ->
  exists m,
    filesTable s' !! Reply.fileId b = Some m /\
    forall i h, FileItem.chunkHashes m !! i = Some h ->
      h = sha256Hex (sliceAt (content (readStream file)) i).
Proof.
  intros (_ & _ & _ & [Good|Bad] & _)%upload_run.
  - destruct Good as (l & tc & s1 & item & [= ->] & -> & _ & Ef & _ & Fin & _
                      & _ & Eh & _).
    cbn [Reply.fileId]. eexists. split; [rewrite Ef; apply lookup_insert_eq|].
    cbn [FileItem.chunkHashes]. intros i h. rewrite Eh.
    change (map sha256Hex (emitted tc)) with (sha256Hex <$> emitted tc).
    rewrite list_lookup_fmap.
    destruct (emitted tc !! i) as [c|] eqn:Hc; [|done].
    intros [= <-]. by rewrite (fixedSizeChunking_slices _ _ _ _ Fin Hc).
  - by destruct Bad as (e & [=] & _).
Qed.

(** ** Further statements: the listing route *)

Lemma filesTable_served s : filesTable (served s) = filesTable s.
Proof. unfold served. by destruct (schedule s). Qed.

Lemma listFiles_run page s :
  listFiles page s =
  match fault (upcoming s) with
  | Some _ => (Ok (ListingError "Error fetching files."), served s, [])
  | None =>
      (Ok (Listing (take page (map_to_list (filesTable (served s))).*2)),
       served s, [])
  end.
Proof.
  unfold listFiles, sendScan, tryCatch, bind, arrive, gets, throw, ret.
  by destruct (fault (upcoming s)).
Qed.

(** X13.  The listing route always answers and writes nothing: the
    [files] table and the bucket are as before.  If the scan is rejected the
    reply is the fixed text, whatever the rejection; otherwise it lists as
    many items as the page and the table allow, and every listed item is a
    manifest of the table. *)
Theorem X13_listing page s :
  exists r s',
    listFiles page s = (Ok r, s', []) /\
    filesTable s' = filesTable s /\
    s3Bucket s' = s3Bucket s /\
    match fault (upcoming s) with
    | Some _ => r = ListingError "Error fetching files."
    | None =>
        exists items,
          r = Listing items /\
          length items = (page `min` size (filesTable s))%nat /\
          forall m, m ∈ items -> exists id, filesTable s !! id = Some m
    end.
Proof.
  rewrite listFiles_run, filesTable_served.
  destruct (fault (upcoming s)); eexists _, (served s);
    (split; [reflexivity|]); (split; [apply filesTable_served|]);
    (split; [apply s3Bucket_served|]); [reflexivity|].
  eexists. split; [reflexivity|]. split.
  - by rewrite length_take, length_fmap, length_map_to_list.
  - intros m Hm%subseteq_take.
    apply list_elem_of_fmap in Hm as ([id m'] & -> & Hin).
    exists id. by apply elem_of_map_to_list.
Qed.

(** X14.  Upload, then list.  After a successful upload, a listing whose
    scan is accepted and whose page holds the whole table contains the
    manifest of that upload: the item with the reply's [fileId], file name
    and size, the digest of the file as [contentHash] and as many chunk
    hashes as the reply counts chunks. *)
Theorem X14_upload_then_list file s b s1 t page :
  upload (Some file) s = (Ok (Status200 b), s1, t) ->
  fault (upcoming s1) = None ->
  (size (filesTable s1) <= page)%nat ->
  exists items m s2,
    listFiles page s1 = (Ok (Listing items), s2, []) /\
    m ∈ items /\
    FileItem.fileId m = Reply.fileId b /\
    FileItem.fileName m = Reply.fileName b /\
    FileItem.size m = Reply.size b /\
    FileItem.contentHash m = sha256Hex (content (readStream file)) /\
    N.of_nat (length (FileItem.chunkHashes m)) = Reply.chunks b.
Proof.
  intros (_ & _ & _ & [Good|Bad] & _)%upload_run F Hpage.
  - destruct Good as (l & tc & w & item & [= ->] & Eitem & _ & Ef & _ & _ & Kh & _).
    rewrite listFiles_run, F, filesTable_served.
    eexists _, item, _. split; [reflexivity|].
    cbn [Reply.fileId Reply.fileName Reply.size Reply.chunks].
    split; [|subst item; by rewrite <- Kh].
    rewrite take_ge by (by rewrite length_fmap, length_map_to_list).
    apply (list_elem_of_fmap_2' snd _ (rng s (drawn s), item)); [|reflexivity].
    apply elem_of_map_to_list. rewrite Ef. apply lookup_insert_eq.
  - by destruct Bad as (e & [=] & _).
Qed.

(** ** The stream promise under a pending ['error'] *)

Lemma requestsSent_app t1 t2 :
  requestsSent (t1 ++ t2) = (requestsSent t1 + requestsSent t2)%nat.
Proof. unfold requestsSent. by rewrite List.filter_app, length_app. Qed.

Lemma chunkRequests_app t1 t2 :
  chunkRequests (t1 ++ t2) = (chunkRequests t1 + chunkRequests t2)%nat.
Proof. unfold chunkRequests. by rewrite List.filter_app, length_app. Qed.

(** The handlers of the stream send chunk requests only. *)
Lemma streamPromise_requests rs l s o s' t :
  streamPromise rs l s = (o, s', t) -> requestsSent t = chunkRequests t.
Proof.
  apply (streamPromise_lift (fun _ _ _ _ t => requestsSent t = chunkRequests t)).
  - reflexivity.
  - reflexivity.
  - intros _ _ _ _ t1 _ _ _ t2 E1 _ E2.
    by rewrite requestsSent_app, chunkRequests_app, E1, E2.
  - intros chunk l0 s0 o0 s0' t0 Cases%processChunk_cases. cbv zeta in Cases.
    destruct Cases as [(e & _ & _ & ->)|[(_ & _ & _ & ->)|[(e & _ & _ & ->)
                       |(rej & _ & _ & ->)]]]; reflexivity.
Qed.

Lemma deliver_one data l s : deliver [data] l s = onData data l s.
Proof.
  cbn [deliver]. unfold bind, ret.
  destruct (onData data l s) as [[[l1|e|] s1] t1]; by rewrite ?app_nil_r.
Qed.

Lemma deliver_cons data frags l s :
  deliver (data :: frags) l s =
  match onData data l s with
  | (Ok l1, s1, t1) =>
      let '(o, s2, t2) := deliver frags l1 s1 in (o, s2, t1 ++ t2)
  | other => other
  end.
Proof.
  cbn [deliver]. unfold bind.
  by destruct (onData data l s) as [[[l1|e|] s1] t1].
Qed.

(** What is left of a pending ['error'] after the history [t]. *)
Lemma deliverE_cases frags : forall l pending s o s' t,
  deliverE frags l pending s = (o, s', t) ->
  (exists o',
     deliver frags l s = (o', s', t) /\
     (forall n e, pending = Some (n, e) -> (requestsSent t <= n)%nat) /\
     o = carryOn o'
           (match pending with
            | Some (n, e) => Some ((n - requestsSent t)%nat, e)
            | None => None
            end)) \/
  (exists n e frags1 frags2 o',
     pending = Some (n, e) /\ frags = frags1 ++ frags2 /\
     deliver frags1 l s = (o', s', t) /\ (n < requestsSent t)%nat /\
     o = match o' with Stuck => Stuck | _ => Throw e end).
Proof.
  induction frags as [|data frags IH]; intros l pending s o s' t.
  - cbn [deliverE]. intros [= <- <- <-]. left. exists (Ok l).
    split; [reflexivity|]. split; [intros; cbn; lia|].
    destruct pending as [[n e]|]; cbn; [by rewrite Nat.sub_0_r|done].
  - cbn [deliverE]. unfold bind at 1, interruptible. rewrite deliver_cons.
    destruct (onData data l s) as [[o1 s1] t1] eqn:E1.
    destruct pending as [[n e]|].
    + destruct (Nat.ltb_spec n (requestsSent t1)) as [Hfire|Hwait].
      * intros Hres. right. exists n, e, [data], frags, o1.
        split; [reflexivity|]. split; [reflexivity|].
        rewrite deliver_one, E1.
        destruct o1; injection Hres as <- <- <-; by repeat split.
      * destruct o1 as [l1|e1|]; cbn [carryOn fst snd].
        -- destruct (deliverE frags l1 _ s1) as [[o2 s2] t2] eqn:E2.
           intros [= <- <- <-].
           apply IH in E2 as [(o' & Hd & Hn & ->)|(n' & e' & f1 & f2 & o' & [= <- <-]
                                                  & -> & Hd & Hn & ->)].
           ++ left. exists o'. rewrite Hd. split; [reflexivity|].
              split.
              ** intros ? ? [= <- <-]. rewrite requestsSent_app.
                 specialize (Hn _ _ eq_refl). lia.
              ** do 3 f_equal. rewrite requestsSent_app. lia.
           ++ right. exists n, e, (data :: f1), f2, o'.
              split; [reflexivity|]. split; [reflexivity|].
              rewrite deliver_cons, E1, Hd. split; [reflexivity|].
              split; [rewrite requestsSent_app; lia|reflexivity].
        -- intros [= <- <- <-]. left. exists (Throw e1).
           split; [reflexivity|]. split; [by intros ? ? [= <- <-]|reflexivity].
        -- intros [= <- <- <-]. left. exists Stuck.
           split; [reflexivity|]. split; [by intros ? ? [= <- <-]|reflexivity].
    + destruct o1 as [l1|e1|]; cbn [carryOn fst snd].
      * destruct (deliverE frags l1 None s1) as [[o2 s2] t2] eqn:E2.
        intros [= <- <- <-].
        apply IH in E2 as [(o' & Hd & Hn & ->)|(n' & e' & f1 & f2 & o' & [=] & _)].
        left. exists o'. rewrite Hd. by repeat split.
      * intros [= <- <- <-]. left. exists (Throw e1). by repeat split.
      * intros [= <- <- <-]. left. exists Stuck. by repeat split.
Qed.

Lemma streamPromise_cut frags e o l s s' t :
  deliver frags l s = (o, s', t) ->
  streamPromise (mkStream frags (ReadError e)) l s =
  (match o with Ok _ => Throw e | Throw e' => Throw e' | Stuck => Stuck end, s', t).
Proof.
  intros Hd. unfold streamPromise, bind. cbn [fragments ending]. rewrite Hd.
  destruct o; unfold throw; by rewrite ?app_nil_r.
Qed.

(** A run of [streamPromiseE] is a run of [streamPromise], or it is
    rejected by the pending ['error'] and has the world and the history of a
    run of [streamPromise] on what the stream has delivered by then. *)
Lemma streamPromiseE_cases rs pending l s o s' t :
  streamPromiseE rs pending l s = (o, s', t) ->
  (streamPromise rs l s = (o, s', t) /\
   forall n e, pending = Some (n, e) -> (requestsSent t <= n)%nat) \/
  (exists n e rs' o',
     pending = Some (n, e) /\ (n < requestsSent t)%nat /\
     streamPromise rs' l s = (o', s', t) /\ cutShort rs' rs e /\
     o = match o' with Stuck => Stuck | _ => Throw e end).
Proof.
  unfold streamPromiseE, bind at 1.
  destruct (deliverE (fragments rs) l pending s) as [[o1 s1] t1] eqn:E1.
  apply deliverE_cases in E1
    as [(o' & Hd & Hn & ->)|(n & e & f1 & f2 & o' & -> & Hf & Hd & Hn & ->)].
  - destruct o' as [l1|e1|]; cbn [carryOn].
    + (* every ['data'] handler has run *)
      assert (forall o2 s2 t2,
                match ending rs with
                | EndOfFile => onEnd l1
                | ReadError e => throw e
                end s1 = (o2, s2, t2) ->
                streamPromise rs l s = (o2, s2, t1 ++ t2)) as Simple.
      { intros o2 s2 t2 E. unfold streamPromise, bind. by rewrite Hd, E. }
      destruct (ending rs) as [|e0] eqn:Eend.
      * unfold bind at 1, interruptible. cbn [fst snd].
        destruct (onEnd l1 s1) as [[o2 s2] t2] eqn:E2.
        destruct pending as [[n e]|].
        -- specialize (Hn _ _ eq_refl).
           destruct (Nat.ltb_spec (n - requestsSent t1) (requestsSent t2))
             as [Hfire|Hwait].
           ++ intros Hres. right. exists n, e, rs, o2.
              split; [reflexivity|].
              assert (s' = s2 /\ t = t1 ++ t2 /\
                      o = match o2 with Stuck => Stuck | _ => Throw e end)
                as (-> & -> & ->)
                by (destruct o2; injection Hres as <- <- <-; by repeat split).
              split; [rewrite requestsSent_app; lia|].
              split; [by apply Simple|].
              split; [by left|reflexivity].
           ++ intros Hres. left.
              assert (s' = s2 /\ t = t1 ++ t2 /\ o = o2) as (-> & -> & ->).
              { destruct o2; cbn [carryOn] in Hres; unfold ret in Hres;
                  injection Hres as <- <- <-; by rewrite ?app_nil_r. }
              split; [by apply Simple|].
              intros ? ? [= <- <-]. rewrite requestsSent_app. lia.
        -- intros Hres. left.
           assert (s' = s2 /\ t = t1 ++ t2 /\ o = o2) as (-> & -> & ->).
           { destruct o2; cbn [carryOn] in Hres; unfold ret in Hres;
               injection Hres as <- <- <-; by rewrite ?app_nil_r. }
           split; [by apply Simple|done].
      * unfold throw. intros [= <- <- <-]. left.
        split; [exact (Simple (Throw e0) s1 [] eq_refl)|].
        intros n e Hp. rewrite app_nil_r. exact (Hn _ _ Hp).
    + intros [= <- <- <-]. left. split; [|exact Hn].
      unfold streamPromise, bind. by rewrite Hd.
    + intros [= <- <- <-]. left. split; [|exact Hn].
      unfold streamPromise, bind. by rewrite Hd.
  - (* the ['error'] interrupts a ['data'] handler *)
    intros Hres. right.
    exists n, e, (mkStream f1 (ReadError e)),
      (match o' with Ok _ => Throw e | Throw e' => Throw e' | Stuck => Stuck end).
    assert (s' = s1 /\ t = t1 /\ o = match o' with Stuck => Stuck | _ => Throw e end)
      as (-> & -> & ->)
      by (destruct o'; injection Hres as <- <- <-; by repeat split).
    split; [reflexivity|]. split; [exact Hn|].
    split; [by apply streamPromise_cut|].
    split; [right; split; [reflexivity|by exists f2]|by destruct o'].
Qed.

Lemma streamPromiseE_None rs l s :
  streamPromiseE rs None l s = streamPromise rs l s.
Proof.
  destruct (streamPromiseE rs None l s) as [[o s'] t] eqn:E.
  by apply streamPromiseE_cases in E as [[-> _]|(n & e & _ & _ & [=] & _)].
Qed.

(** The upload handler over [streamPromiseE], as the promise followed by
    the write of the manifest. *)
Lemma uploadE_unfold file pending s :
  uploadE (Some file) pending s =
  let fileId := rng s (drawn s) in
  match streamPromiseE (readStream file) pending initially (afterDraw s) with
  | (Ok l, s1, t1) =>
      let item := FileItem.mk fileId (originalname file) (totalBytes l)
                              (wallClock s1) (digest (contentHasher l))
                              (chunkHashes l) in
      match fault (upcoming s1) with
      | Some err =>
          (Ok (Status500 ("Error processing file: " +:+ message err)), served s1,
           t1 ++ [Sent (PutItem FILES_TABLE item) (Some err)])
      | None =>
          (Ok (Status200
                 (Reply.mk "File processed with chunk-level deduplication."
                           fileId (originalname file) (totalBytes l)
                           (N.of_nat (length (chunkHashes l)))
                           (uploadedNewChunks l) (reusedChunks l))),
           storeFileItem item (served s1),
           t1 ++ [Sent (PutItem FILES_TABLE item) None])
      end
  | (Throw e, s1, t1) =>
      (Ok (Status500 ("Error processing file: " +:+ message e)), s1, t1)
  | (Stuck, s1, t1) => (Stuck, s1, t1)
  end.
Proof.
  cbn [uploadE]. unfold bind at 1. rewrite randomUUID_run. fold (afterDraw s).
  unfold tryCatch, bind at 1. cbv zeta.
  destruct (streamPromiseE (readStream file) pending initially (afterDraw s))
    as [[[l|e|] s1] t1]; [|unfold ret; by rewrite !app_nil_r|reflexivity].
  unfold bind. rewrite putFileManifest_run. cbv zeta.
  destruct (fault (upcoming s1)); unfold ret; cbn [app]; by rewrite ?app_nil_r.
Qed.

(** A run of [uploadE] is a run of [upload] during whose chunk requests no
    ['error'] is emitted, or it is a 500 with the message of the ['error']
    that interrupted a handler, and its world and history are those of the
    stream promise on what the stream has delivered by then. *)
Lemma uploadE_cases file pending s o s' t :
  uploadE (Some file) pending s = (o, s', t) ->
  (upload (Some file) s = (o, s', t) /\ notFired pending t) \/
  (exists n e rs' o',
     pending = Some (n, e) /\ (n < chunkRequests t)%nat /\
     o = Ok (Status500 ("Error processing file: " +:+ message e)) /\
     streamPromise rs' initially (afterDraw s) = (o', s', t) /\
     cutShort rs' (readStream file) e).
Proof.
  rewrite uploadE_unfold. cbv zeta.
  destruct (streamPromiseE (readStream file) pending initially (afterDraw s))
    as [[o1 s1] t1] eqn:E1.
  apply streamPromiseE_cases in E1
    as [[Hs Hn]|(n & e & rs' & o' & -> & Hn & Hs & Hcut & ->)].
  - pose proof (streamPromise_requests _ _ _ _ _ _ Hs) as Hreq.
    intros Hres. left. split.
    + rewrite upload_unfold. cbv zeta. by rewrite Hs.
    + intros n e Hp. specialize (Hn _ _ Hp).
      destruct o1 as [l|e1|]; [destruct (fault (upcoming s1))|..];
        injection Hres as <- <- <-; rewrite ?chunkRequests_app; cbn; lia.
  - pose proof (streamPromise_requests _ _ _ _ _ _ Hs) as Hreq.
    pose proof Hs as (_ & NoStuck & _)%streamPromise_run.
    destruct o' as [l'|e'|]; [| |done]; intros [= <- <- <-]; right;
      exists n, e, rs'; eexists; (split; [reflexivity|]);
      (split; [lia|]); by repeat split.
Qed.

(** ** What the stream's handlers write, whatever the outcome *)

Lemma addressed_nil : addressed [].
Proof. split; intros; by apply elem_of_nil in H. Qed.

Lemma addressed_app t1 t2 : addressed t1 -> addressed t2 -> addressed (t1 ++ t2).
Proof.
  intros [O1 I1] [O2 I2]. split.
  - intros bkt key body rej [Hin|Hin]%elem_of_app;
      [destruct (O1 _ _ _ _ Hin) as (? & ? & ?)
      |destruct (O2 _ _ _ _ Hin) as (? & ? & ?)];
      (split; [done|split; [done|]]); rewrite emitted_app, elem_of_app; auto.
  - intros tbl item rej [Hin|Hin]%elem_of_app;
      [destruct (I1 _ _ _ Hin) as (? & body & ? & ?)
      |destruct (I2 _ _ _ Hin) as (? & body & ? & ?)];
      (split; [done|]); exists body; rewrite elem_of_app; auto.
Qed.

Lemma streamPromise_addressed rs l s o s' t :
  streamPromise rs l s = (o, s', t) -> addressed t.
Proof.
  apply (streamPromise_lift (fun _ _ _ _ t => addressed t)).
  - intros; exact addressed_nil.
  - intros; exact addressed_nil.
  - intros; by apply addressed_app.
  - intros chunk l0 s0 o0 s0' t0 Cases%processChunk_cases. cbv zeta in Cases.
    destruct Cases as [(e & _ & _ & ->)|[(_ & _ & _ & ->)|[(e & _ & _ & ->)
                       |(rej & _ & _ & ->)]]];
      (split; [intros bkt key body r Hin|intros tbl item r Hin]);
      apply list_elem_of_In in Hin; cbn in Hin;
      repeat (destruct Hin as [[=]|Hin]); try done; subst.
    + split; [done|]. split; [done|]. cbn. apply list_elem_of_here.
    + split; [done|]. split; [done|]. cbn. apply list_elem_of_here.
    + split; [done|]. exists chunk. split; [|by repeat split].
      cbn [ChunkItem.s3Key]. apply list_elem_of_In. cbn. auto.
Qed.

Lemma bucketKept_same s s' t : s3Bucket s' = s3Bucket s -> bucketKept s s' t.
Proof. intros E. split; rewrite E; auto. Qed.

Lemma bucketKept_seq s s1 t1 s2 t2 :
  bucketKept s s1 t1 -> bucketKept s1 s2 t2 -> bucketKept s s2 (t1 ++ t2).
Proof.
  intros [K1 N1] [K2 N2]. split; [auto|].
  intros key body [H|[-> H]]%N2.
  - apply N1 in H as [H|[-> H]]; [by left|right].
    split; [done|]. rewrite emitted_app, elem_of_app. by left.
  - right. split; [done|]. rewrite emitted_app, elem_of_app. by right.
Qed.

Lemma streamPromise_bucketKept rs l s o s' t :
  streamPromise rs l s = (o, s', t) -> bucketKept s s' t.
Proof.
  apply (streamPromise_lift (fun _ s _ s' t => bucketKept s s' t)).
  - intros; by apply bucketKept_same.
  - intros; by apply bucketKept_same.
  - intros; by eapply bucketKept_seq.
  - intros chunk l0 s0 o0 s0' t0 Cases%processChunk_cases. cbv zeta in Cases.
    destruct Cases as [(e & _ & -> & _)|[(_ & -> & _)|[(e & _ & -> & _)
                       |(rej & _ & Hs & ->)]]];
      try (apply bucketKept_same; by rewrite ?s3Bucket_served).
    assert (s3Bucket s0' =
            <[blobKey (sha256Hex chunk) := chunk]> (s3Bucket s0)) as Eb.
    { destruct Hs as [-> | ->]; cbn [s3Bucket storeChunkItem];
        rewrite s3Bucket_served; cbn [s3Bucket storeObject];
        by rewrite !s3Bucket_served. }
    unfold bucketKept. rewrite Eb. split.
    + intros key [body H].
      destruct (decide (blobKey (sha256Hex chunk) = key)) as [<-|Hne].
      * rewrite lookup_insert_eq. by eexists.
      * rewrite lookup_insert_ne by done. by eexists.
    + intros key body.
      destruct (decide (blobKey (sha256Hex chunk) = key)) as [<-|Hne].
      * rewrite lookup_insert_eq. intros [= <-]. right. split; [done|].
        cbn. apply list_elem_of_here.
      * rewrite lookup_insert_ne by done. by left.
Qed.

(** ** The chunks cut, whatever the outcome *)

(** Chunks of [CHUNK_SIZE] bytes cut from the front of [data] are its
    slices. *)
Lemma full_prefix_slices cs : forall data rest i c,
  Forall (fun c => blen c = CHUNK_SIZE) cs ->
  concat cs ++ rest = data ->
  cs !! i = Some c -> c = sliceAt data i.
Proof.
  induction cs as [|c0 r IH]; intros data rest i c Hfull Hcat Hc; [done|].
  apply Forall_cons in Hfull as [Hc0 Hfull]. unfold blen in Hc0.
  rewrite sliceAt_take_drop. subst data. cbn [concat]. rewrite <- app_assoc.
  destruct i as [|j].
  - injection Hc as <-. rewrite Nat.mul_0_l, drop_0, take_app_length'; [done|lia].
  - cbn [lookup list_lookup] in Hc.
    rewrite (IH _ rest _ _ Hfull eq_refl Hc), sliceAt_take_drop. f_equal.
    replace (S j * N.to_nat CHUNK_SIZE)%nat
      with (length c0 + j * N.to_nat CHUNK_SIZE)%nat by lia.
    by rewrite drop_app_add.
Qed.

(** The loop cuts chunks of [CHUNK_SIZE] bytes from the front of
    [buffered], whatever the fuel and the outcome. *)
Lemma drain_emitted fuel : forall l s o s' t,
  drain fuel l s = (o, s', t) ->
  Forall (fun c => blen c = CHUNK_SIZE) (emitted t) /\
  exists rest, concat (emitted t) ++ rest = buffered l.
Proof.
  induction fuel as [|fuel IH]; intros l s o s' t;
    destruct (N.le_gt_cases CHUNK_SIZE (blen (buffered l))) as [Hge|Hlt].
  - rewrite (drain_stuck _ Hge). intros [= <- <- <-].
    split; [constructor|by exists (buffered l)].
  - rewrite (drain_below _ _ Hlt). intros [= <- <- <-].
    split; [constructor|by exists (buffered l)].
  - rewrite (drain_above _ _ Hge).
    destruct (subarray_front _ Hge) as (Esplit & Efull & _).
    generalize dependent (subarray (buffered l) 0 CHUNK_SIZE).
    generalize dependent (subarrayFrom (buffered l) CHUNK_SIZE).
    intros rest chunk Esplit Efull. unfold bind at 1.
    destruct (processChunk _ _ s) as [[o1 s1] t1] eqn:E1.
    apply processChunk_run in E1 as (_ & Em1 & Keep1).
    assert (Forall (fun c => blen c = CHUNK_SIZE) (emitted t1) /\
            concat (emitted t1) ++ rest = buffered l) as [F1 C1].
    { rewrite Em1. split; [by constructor|].
      cbn [concat]. by rewrite app_nil_r. }
    destruct o1 as [l2|e|]; [|intros [= <- <- <-]; split; [done|by exists rest]..].
    destruct (Keep1 l2 eq_refl) as (Kb & _). cbn [buffered] in Kb.
    destruct (drain fuel l2 s1) as [[o2 s2] t2] eqn:E2. intros [= <- <- <-].
    apply IH in E2 as (F2 & rest2 & C2). rewrite emitted_app. split.
    + by apply Forall_app.
    + exists rest2. rewrite concat_app, <- app_assoc, C2, Kb. exact C1.
  - rewrite (drain_below _ _ Hlt). intros [= <- <- <-].
    split; [constructor|by exists (buffered l)].
Qed.

Lemma deliver_emitted frags : forall l s o s' t seen cs,
  Chunked seen cs l ->
  blen (buffered l) < CHUNK_SIZE ->
  deliver frags l s = (o, s', t) ->
  Forall (fun c => blen c = CHUNK_SIZE) (cs ++ emitted t) /\
  exists rest, concat (cs ++ emitted t) ++ rest = seen ++ concat frags.
Proof.
  induction frags as [|data frags IH]; intros l s o s' t seen cs Inv Hlt.
  - cbn [deliver]. intros [= <- <- <-]. rewrite !app_nil_r.
    destruct Inv as [Ic If _ _]. split; [exact If|by exists (buffered l)].
  - rewrite deliver_cons. destruct (onData data l s) as [[o1 s1] t1] eqn:E1.
    pose proof E1 as (F1 & rest1 & C1)%drain_emitted. cbn [buffered] in C1.
    apply (onData_run _ _ _ _ _ _ seen cs Inv) in E1 as (_ & Post1).
    assert (Forall (fun c => blen c = CHUNK_SIZE) (cs ++ emitted t1) /\
            concat (cs ++ emitted t1) ++ rest1 ++ concat frags =
              seen ++ concat (data :: frags)) as [F C].
    { destruct Inv as [Ic If _ _]. split; [by apply Forall_app|].
      cbn [concat]. rewrite concat_app, <- !app_assoc, (app_assoc _ rest1), C1.
      by rewrite !app_assoc, Ic. }
    destruct o1 as [l1|e|];
      [|intros [= <- <- <-]; split; [done|by eexists]..].
    destruct (Post1 l1 eq_refl) as (Inv1 & Hlt1).
    destruct (deliver frags l1 s1) as [[o2 s2] t2] eqn:E2. intros [= <- <- <-].
    apply (IH _ _ _ _ _ _ _ Inv1 Hlt1) in E2 as (F2 & rest2 & C2).
    rewrite emitted_app, app_assoc. split; [exact F2|].
    exists rest2. rewrite C2. cbn [concat]. by rewrite app_assoc.
Qed.

Lemma onEnd_emitted l s o s' t seen cs :
  Chunked seen cs l ->
  blen (buffered l) < CHUNK_SIZE ->
  onEnd l s = (o, s', t) ->
  fixedSizeChunking seen (cs ++ emitted t).
Proof.
  intros [Ic If _ _] Hlt. unfold onEnd.
  pose proof (fixedSizeChunking_tail _ _ _ Ic If Hlt) as Fin.
  destruct (0 <? blen (buffered l)).
  - intros (_ & -> & _)%processChunk_run. exact Fin.
  - by intros [= <- <- <-].
Qed.

(** Whatever the outcome of the stream promise, the chunk handed to
    [ensureChunkStored] at position [i] is the slice at [i] of the bytes of
    the stream, also of a stream that would have gone on after a read
    error. *)
Lemma streamPromise_slices rs s o s' t more i c :
  streamPromise rs initially s = (o, s', t) ->
  (ending rs = EndOfFile -> more = []) ->
  emitted t !! i = Some c ->
  c = sliceAt (content rs ++ more) i /\ 0 < blen c.
Proof.
  pose proof CHUNK_SIZE_pos as Pos.
  unfold streamPromise, bind.
  destruct (deliver (fragments rs) initially s) as [[o1 s1] t1] eqn:E1.
  pose proof (deliver_emitted _ _ _ _ _ _ [] [] Chunked_initially eq_refl E1)
    as (F1 & rest1 & C1). cbn [app] in F1, C1. fold (content rs) in C1.
  assert (forall c, emitted t1 !! i = Some c ->
            c = sliceAt (content rs ++ more) i /\ 0 < blen c) as Cut.
  { intros c0 Hc. split.
    - apply (full_prefix_slices (emitted t1) _ (rest1 ++ more) _ _ F1);
        [by rewrite app_assoc, C1|exact Hc].
    - rewrite Forall_lookup in F1. rewrite (F1 _ _ Hc). exact Pos. }
  apply (deliver_run _ _ _ _ _ _ [] [] Chunked_initially eq_refl) in E1
    as (_ & Post1).
  destruct o1 as [l1|e|]; [|intros [= <- <- <-] _; apply Cut..].
  destruct (Post1 l1 eq_refl) as (Inv1 & Hlt1). cbn [app] in Inv1.
  fold (content rs) in Inv1.
  destruct (ending rs) as [|e] eqn:Eend.
  - destruct (onEnd l1 s1) as [[o2 s2] t2] eqn:E2. intros [= <- <- <-] Hmore Hc.
    rewrite (Hmore eq_refl), app_nil_r. rewrite emitted_app in Hc.
    apply (onEnd_emitted _ _ _ _ _ _ _ Inv1 Hlt1) in E2.
    split; [exact (fixedSizeChunking_slices _ _ _ _ E2 Hc)|].
    destruct E2 as (_ & Hall & _). by destruct (Hall _ _ Hc).
  - unfold throw. intros [= <- <- <-] _. rewrite app_nil_r. apply Cut.
Qed.

Lemma cutShort_content rs' rs e :
  cutShort rs' rs e ->
  exists more,
    content rs = content rs' ++ more /\ (ending rs' = EndOfFile -> more = []).
Proof.
  intros [[-> _]|(Hend & more & Hf)].
  - exists []. by rewrite app_nil_r.
  - exists (concat more). unfold content. rewrite Hf, concat_app.
    split; [reflexivity|]. by rewrite Hend.
Qed.

(** The stream promise inside a run of [uploadE]: the promise of the
    stream, or of what the stream has delivered when it is interrupted. *)
Lemma uploadE_stream file pending s o s' t :
  uploadE (Some file) pending s = (o, s', t) ->
  exists rs' o1 s1 t1 more,
    streamPromise rs' initially (afterDraw s) = (o1, s1, t1) /\
    content (readStream file) = content rs' ++ more /\
    (ending rs' = EndOfFile -> more = []) /\
    s3Bucket s' = s3Bucket s1 /\
    (t = t1 \/ exists item rej, t = t1 ++ [Sent (PutItem FILES_TABLE item) rej]).
Proof.
  intros [[Hup _]|(n & e & rs' & o' & _ & _ & _ & Hs & Hcut)]%uploadE_cases.
  - rewrite upload_unfold in Hup. cbv zeta in Hup.
    destruct (streamPromise (readStream file) initially (afterDraw s))
      as [[o1 s1] t1] eqn:E1.
    exists (readStream file), o1, s1, t1, [].
    split; [exact E1|]. split; [by rewrite app_nil_r|]. split; [done|].
    destruct o1 as [l|e1|]; [destruct (fault (upcoming s1))|..];
      injection Hup as <- <- <-;
      cbn [s3Bucket storeFileItem]; rewrite ?s3Bucket_served; eauto.
  - destruct (cutShort_content _ _ _ Hcut) as (more & Hc & Hm).
    exists rs', o', s', t, more. by eauto 10.
Qed.

(** In a run of [uploadE], whatever its outcome, every chunk handed to
    [ensureChunkStored] is the slice of the file at its position. *)
Lemma uploadE_slices file pending s o s' t body :
  uploadE (Some file) pending s = (o, s', t) ->
  body ∈ emitted t ->
  sliceOf (content (readStream file)) (emitted t) body.
Proof.
  intros (rs' & o1 & s1 & t1 & more & Hs & Hc & Hm & _ & Ht)%uploadE_stream Hin.
  assert (emitted t = emitted t1) as Eem.
  { destruct Ht as [->|(item & rej & ->)]; [done|].
    by rewrite emitted_app, app_nil_r. }
  rewrite Eem in *. apply list_elem_of_lookup in Hin as [i Hi].
  exists i. split; [exact Hi|]. rewrite Hc.
  exact (streamPromise_slices _ _ _ _ _ _ _ _ Hs Hm Hi).
Qed.

(** ** The statements on failures, with ['error'] at any time *)

(** C6.  The stream may end with a read error, or emit ['error'] while a
    chunk request of a ['data'] handler or of the ['end'] handler is in
    flight; the store may reject the write of a chunk blob; the [files] table
    may reject the write of the manifest.  In each of these cases the reply is
    a single 500 that carries the message of one error, and the [files] table
    is left as it was, also once the interrupted handler has run to its end:
    no manifest, complete or partial, is stored for the upload. *)
Theorem C6_failure_aborts file pending s o s' t :
  uploadE (Some file) pending s = (o, s', t) ->
  (exists e, ending (readStream file) = ReadError e) \/
  (exists n e, pending = Some (n, e) /\ (n < chunkRequests t)%nat) \/
  (exists bkt key body e, Sent (PutObject bkt key body) (Some e) ∈ t) \/
  (exists tbl item e, Sent (PutItem tbl item) (Some e) ∈ t) ->
  (exists e, o = Ok (Status500 ("Error processing file: " +:+ message e))) /\
  filesTable s' = filesTable s.
Proof.
  intros [[Hup Hquiet]|(n & e & rs' & o' & _ & _ & -> & Hs & _)]%uploadE_cases
         Failure.
  - apply upload_run in Hup as (_ & _ & _ & [Good|Bad] & _).
    + exfalso.
      destruct Good as (l & tc & s1 & item & _ & _ & -> & _ & Eend & _ & _ & _
                        & _ & _ & Rj & _).
      rewrite Forall_forall in Rj.
      destruct Failure as [(e & Ee)|[(n & e & Hp & Hn)
                          |[(bkt & key & body & e & Hin)|(tbl & it & e & Hin)]]].
      * congruence.
      * specialize (Hquiet _ _ Hp). lia.
      * apply elem_of_app in Hin as [Hin|Hin%list_elem_of_singleton];
          [by apply Rj in Hin|discriminate].
      * apply elem_of_app in Hin as [Hin|Hin%list_elem_of_singleton];
          [by apply Rj in Hin|discriminate].
    + destruct Bad as (e & -> & Ef & _). split; [by exists e|exact Ef].
  - split; [by exists e|].
    by apply streamPromise_run in Hs as ((Ef & _) & _).
Qed.

(** X2.  A 500 reply of the upload route carries the message of an error
    that did occur: the ['error'] that the stream emitted while a chunk
    request was in flight, or the read error with which the stream ended, or
    the rejection of the last request of the history, which is then not a
    conditional insert.  No manifest is stored. *)
Theorem X2_failure_is_reported file pending s body s' t :
  uploadE (Some file) pending s = (Ok (Status500 body), s', t) ->
  exists e,
    body = "Error processing file: " +:+ message e /\
    ((exists n, pending = Some (n, e) /\ (n < chunkRequests t)%nat) \/
     ending (readStream file) = ReadError e \/
     exists c, last t = Some (Sent c (Some e)) /\
               isIndexWrite (Sent c (Some e)) = false) /\
    filesTable s' = filesTable s.
Proof.
  intros [[Hup _]|(n & e & rs' & o' & -> & Hn & [= ->] & Hs & _)]%uploadE_cases.
  - apply upload_run in Hup as (_ & _ & _ & [Good|Bad] & _).
    + by destruct Good as (l & tc & s1 & item & [=] & _).
    + destruct Bad as (e & [= ->] & Ef & Why). exists e.
      split; [reflexivity|]. split; [|exact Ef]. right.
      destruct Why as [Hend|(c & Hlast & Hrej)]; [by left|right].
      exists c. split; [exact Hlast|]. by destruct c.
  - exists e. split; [reflexivity|]. split; [left; by exists n|].
    by apply streamPromise_run in Hs as ((Ef & _) & _).
Qed.

(** X7.  In the history of an upload, whatever its outcome and whenever the
    stream emits ['error'], every blob write goes to the configured bucket
    under the key of the digest of the blob, and the blob is the slice of the
    file at the position at which it was cut: the bytes from offset
    [i * CHUNK_SIZE] up to offset [(i + 1) * CHUNK_SIZE] or the end of the
    file, for some [i], and not empty.  A conditional insert is only sent for
    a blob whose write the store has accepted, to the [chunks] table, with an
    item that records the digest, the length and the key of that blob. *)
Theorem X7_writes_are_content_addressed file pending s o s' t :
  uploadE (Some file) pending s = (o, s', t) ->
  (forall bkt key body rej, Sent (PutObject bkt key body) rej ∈ t ->
     bkt = BUCKET_NAME /\ key = blobKey (sha256Hex body) /\
     sliceOf (content (readStream file)) (emitted t) body) /\
  (forall tbl item rej, Sent (PutItemIfAbsent tbl item) rej ∈ t ->
     tbl = CHUNKS_TABLE /\
     exists body,
       Sent (PutObject BUCKET_NAME (ChunkItem.s3Key item) body) None ∈ t /\
       describes item body).
Proof.
  intros Hrun.
  assert (addressed t) as [Hput Hins].
  { pose proof Hrun as (rs' & o1 & s1 & t1 & more & Hs & _ & _ & _ & Ht)
      %uploadE_stream.
    apply streamPromise_addressed in Hs.
    destruct Ht as [->|(item & rej & ->)]; [exact Hs|].
    apply addressed_app; [exact Hs|].
    split; intros; apply list_elem_of_singleton in H; discriminate. }
  split; [|exact Hins].
  intros bkt key body rej Hin. destruct (Hput _ _ _ _ Hin) as (-> & -> & Hem).
  split; [done|]. split; [done|]. exact (uploadE_slices _ _ _ _ _ _ _ Hrun Hem).
Qed.

(** X8.  Whatever the outcome of an upload and whenever the stream emits
    ['error'], no blob leaves the bucket, and a blob found in the bucket
    afterwards was there before under the same key, or it is stored under the
    key of its digest and is the slice of the file at the position at which
    it was cut. *)
Theorem X8_bucket_is_content_addressed file pending s o s' t :
  uploadE (Some file) pending s = (o, s', t) ->
  (forall key, is_Some (s3Bucket s !! key) -> is_Some (s3Bucket s' !! key)) /\
  (forall key body, s3Bucket s' !! key = Some body ->
     s3Bucket s !! key = Some body \/
     (key = blobKey (sha256Hex body) /\
      sliceOf (content (readStream file)) (emitted t) body)).
Proof.
  intros Hrun.
  pose proof Hrun as (rs' & o1 & s1 & t1 & more & Hs & _ & _ & Eb & Ht)
    %uploadE_stream.
  apply streamPromise_bucketKept in Hs as [Keep New].
  assert (emitted t = emitted t1) as Eem.
  { destruct Ht as [->|(item & rej & ->)]; [done|].
    by rewrite emitted_app, app_nil_r. }
  rewrite Eb. split; [exact Keep|].
  intros key body [Hold|[-> Hem]]%New; [by left|right].
  split; [done|]. apply (uploadE_slices _ _ _ _ _ _ _ Hrun). by rewrite Eem.
Qed.

(** ** The chunker, for every stream *)

(** Chunks that are the slices of [data] at their positions, none of them
    empty: none is longer than [CHUNK_SIZE], and all but the last have
    exactly [CHUNK_SIZE] bytes. *)
Lemma slices_bounds data (cs : list bytes) :
  (forall i c, cs !! i = Some c -> c = sliceAt data i /\ 0 < blen c) ->
  forall i c, cs !! i = Some c ->
    blen c <= CHUNK_SIZE /\ ((S i < length cs)%nat -> blen c = CHUNK_SIZE).
Proof.
  intros Hcut i c Hc.
  assert (forall j c', cs !! j = Some c' ->
            length c' =
            (N.to_nat CHUNK_SIZE `min` (length data - j * N.to_nat CHUNK_SIZE))%nat)
    as Hlen.
  { intros j c' Hc'. destruct (Hcut _ _ Hc') as [-> _].
    by rewrite sliceAt_take_drop, length_take, length_drop. }
  pose proof (Hlen _ _ Hc) as Li. split; [unfold blen; lia|].
  intros Hnext. destruct (lookup_lt_is_Some_2 cs (S i) Hnext) as [c' Hc'].
  pose proof (Hlen _ _ Hc') as Ln. destruct (Hcut _ _ Hc') as [_ Pos].
  unfold blen in *. lia.
Qed.

(** C1.  For every stream, every world and every time at which the stream
    may emit ['error'], the stream promise is settled, the loop never running
    out of fuel.  Whatever the outcome, the chunk handed to
    [ensureChunkStored] at position [i] is the slice of the stream at [i], it
    has more than zero and at most [CHUNK_SIZE] bytes, and exactly
    [CHUNK_SIZE] bytes if it is not the last one.  If the stream ends
    normally, no request is rejected and no ['error'] is emitted during the
    chunk requests, the promise resolves.  And whenever it resolves, the
    lengths of the chunks sum to the length of the stream, their number is
    that length divided by [CHUNK_SIZE], rounded up, and an empty stream
    gives no chunk. *)
Theorem C1_chunk_lengths rs pending s :
  exists o s' t,
    streamPromiseE rs pending initially s = (o, s', t) /\
    o <> Stuck /\
    (forall i c, emitted t !! i = Some c ->
       c = sliceAt (content rs) i /\
       0 < blen c <= CHUNK_SIZE /\
       ((S i < length (emitted t))%nat -> blen c = CHUNK_SIZE)) /\
    (ending rs = EndOfFile -> faultFree (schedule s) -> notFired pending t ->
     exists l, o = Ok l) /\
    (forall l, o = Ok l ->
       sumLengths (emitted t) = blen (content rs) /\
       N.of_nat (length (emitted t)) = chunksNeeded (blen (content rs)) /\
       (forall c, last (emitted t) = Some c -> 0 < blen c <= CHUNK_SIZE) /\
       (content rs = [] -> emitted t = [])).
Proof.
  destruct (streamPromiseE rs pending initially s) as [[o s'] t] eqn:E.
  exists o, s', t. split; [reflexivity|].
  assert (exists rs' o' more,
            streamPromise rs' initially s = (o', s', t) /\
            content rs = content rs' ++ more /\
            (ending rs' = EndOfFile -> more = [])) as Under.
  { apply streamPromiseE_cases in E
      as [[Hs _]|(n & e & rs' & o' & _ & _ & Hs & Hcut & _)].
    - exists rs, o, []. by rewrite app_nil_r.
    - destruct (cutShort_content _ _ _ Hcut) as (more & Hc & Hm).
      by exists rs', o', more. }
  assert (forall i c, emitted t !! i = Some c ->
            c = sliceAt (content rs) i /\ 0 < blen c) as Cut.
  { destruct Under as (rs' & o' & more & Hs & Hc & Hm). intros i c Hi.
    rewrite Hc. exact (streamPromise_slices _ _ _ _ _ _ _ _ Hs Hm Hi). }
  apply streamPromiseE_cases in E
    as [[Hs Hn]|(n & e & rs' & o' & -> & Hn & Hs & Hcut & ->)].
  - pose proof (streamPromise_requests _ _ _ _ _ _ Hs) as Hreq.
    apply streamPromise_run in Hs as (_ & O & Succ).
    split; [by intros ->|]. split.
    { intros i c Hi. destruct (Cut _ _ Hi) as [Hc Hpos].
      destruct (slices_bounds _ _ Cut _ _ Hi) as [Hle Hfull]. by repeat split. }
    split; [intros Eend FF _; by apply Succ|].
    intros l ->. destruct O as (_ & Fin & _).
    pose proof Fin as (Ec & Hall & _).
    split; [by rewrite sumLengths_concat, Ec|].
    split; [exact (fixedSizeChunking_length _ _ Fin)|]. split.
    + intros c Hc. rewrite last_lookup in Hc. exact (Hall _ _ Hc).
    + intros Hempty. destruct (emitted t) as [|c cs] eqn:Eem; [reflexivity|].
      destruct (Hall 0%nat c eq_refl) as [Hpos _].
      rewrite Hempty in Ec. cbn [concat] in Ec. apply app_eq_nil in Ec as [-> _].
      unfold blen in Hpos. cbn in Hpos. lia.
  - pose proof (streamPromise_requests _ _ _ _ _ _ Hs) as Hreq.
    apply streamPromise_run in Hs as (_ & O & _).
    destruct o' as [l'|e'|]; [| |done].
    all: split; [done|]; split;
      [intros i c Hi; destruct (Cut _ _ Hi) as [Hc Hpos];
       destruct (slices_bounds _ _ Cut _ _ Hi) as [Hle Hfull]; by repeat split|];
      split; [intros _ _ Hq; specialize (Hq _ _ eq_refl); lia|done].
Qed.

(** ** [upload] and [uploadE] *)

(** Without a pending ['error'], [uploadE] is [upload]. *)
Lemma uploadE_None file s : uploadE file None s = upload file s.
Proof.
  destruct file as [file|]; [|reflexivity].
  rewrite uploadE_unfold, upload_unfold. cbv zeta.
  by rewrite streamPromiseE_None.
Qed.

(** A run of [uploadE] that ends in a 200 is a run of [upload]: what is
    stated of the successful runs of [upload] holds of those of [uploadE]. *)
Lemma uploadE_success file pending s b s' t :
  uploadE (Some file) pending s = (Ok (Status200 b), s', t) ->
  upload (Some file) s = (Ok (Status200 b), s', t) /\ notFired pending t.
Proof.
  by intros [Quiet|(n & e & rs' & o' & _ & _ & [=] & _)]%uploadE_cases.
Qed.

End Server.

(** ** The statements, run on the scenarios *)

(** The same three bytes cut as 2+1 and as 1+2, the second time in a world
    whose index already holds the chunk. *)
Lemma C4_fragmentation_independent_witness :
  content twoPlusOne = content onePlusTwo /\
  streamPromise plainDigest twoPlusOne initially emptyWorld =
    (Ok (mkLocals abc ["abc"] abc 3 1 0), abcStored 0, abcHistory) /\
  streamPromise plainDigest onePlusTwo initially afterA =
    (Ok (mkLocals abc ["abc"] abc 3 0 1), afterA,
     [Ensure "abc" abc; Sent (GetItem CHUNKS_TABLE "abc") None]) /\
  emitted abcHistory =
    emitted [Ensure "abc" abc; Sent (GetItem CHUNKS_TABLE "abc") None] /\
  digests abcHistory =
    digests [Ensure "abc" abc; Sent (GetItem CHUNKS_TABLE "abc") None] /\
  chunkHashes (mkLocals abc ["abc"] abc 3 1 0) =
    chunkHashes (mkLocals abc ["abc"] abc 3 0 1).
Proof.
  assert (content twoPlusOne = content onePlusTwo) as Same by reflexivity.
  assert (streamPromise plainDigest twoPlusOne initially emptyWorld =
            (Ok (mkLocals abc ["abc"] abc 3 1 0), abcStored 0, abcHistory)) as Run1
    by (vm_compute; reflexivity).
  assert (streamPromise plainDigest onePlusTwo initially afterA =
            (Ok (mkLocals abc ["abc"] abc 3 0 1), afterA,
             [Ensure "abc" abc; Sent (GetItem CHUNKS_TABLE "abc") None])) as Run2
    by (vm_compute; reflexivity).
  split; [exact Same|]. split; [exact Run1|]. split; [exact Run2|].
  exact (C4_fragmentation_independent plainDigest _ _ _ _ _ _ _ _ _ _ Same Run1 Run2).
Defined.

(** The upload of [fileA] into the empty world. *)
Lemma C5_manifest_digest_and_size_witness :
  upload plainDigest (Some fileA) emptyWorld =
    (Ok (Status200 replyA), afterA,
     abcHistory ++ [Sent (PutItem FILES_TABLE manifestA) None]) /\
  exists m,
    filesTable afterA !! Reply.fileId replyA = Some m /\
    FileItem.fileId m = Reply.fileId replyA /\
    FileItem.contentHash m = sha256Hex plainDigest (content (readStream fileA)) /\
    FileItem.size m =
      sumLengths (emitted (abcHistory ++ [Sent (PutItem FILES_TABLE manifestA) None])) /\
    FileItem.size m = blen (content (readStream fileA)) /\
    Reply.size replyA = FileItem.size m.
Proof.
  assert (upload plainDigest (Some fileA) emptyWorld =
            (Ok (Status200 replyA), afterA,
             abcHistory ++ [Sent (PutItem FILES_TABLE manifestA) None])) as Run
    by (vm_compute; reflexivity).
  split; [exact Run|].
  exact (C5_manifest_digest_and_size plainDigest _ _ _ _ _ Run).
Defined.

(** The upload of [fileB] after [fileA]: one chunk, reused. *)
Lemma C10_counters_add_up_witness :
  upload plainDigest (Some fileB) afterA =
    (Ok (Status200 replyB), afterB,
     [Ensure "abc" abc; Sent (GetItem CHUNKS_TABLE "abc") None;
      Sent (PutItem FILES_TABLE manifestB) None]) /\
  Reply.chunks replyB = Reply.uploadedNewChunks replyB + Reply.reusedChunks replyB /\
  exists m,
    filesTable afterB !! Reply.fileId replyB = Some m /\
    Reply.chunks replyB = N.of_nat (length (FileItem.chunkHashes m)).
Proof.
  assert (upload plainDigest (Some fileB) afterA =
            (Ok (Status200 replyB), afterB,
             [Ensure "abc" abc; Sent (GetItem CHUNKS_TABLE "abc") None;
              Sent (PutItem FILES_TABLE manifestB) None])) as Run
    by (vm_compute; reflexivity).
  split; [exact Run|].
  exact (C10_counters_add_up plainDigest _ _ _ _ _ Run).
Defined.

(** The lost race: the rival insert lands after the blob is written, the
    conditional insert is refused, the chunk is tallied as new. *)
Lemma C2_chunk_step_witness :
  fault (upcoming raceWorld) = None /\
  (chunksTable (served raceWorld) !! sha256Hex plainDigest abc = None ->
   fault (upcoming (served raceWorld)) = None) /\
  processChunk plainDigest abc initially raceWorld =
    (Ok (tally false "abc" initially), raceLost,
     [Ensure "abc" abc; Sent (GetItem CHUNKS_TABLE "abc") None;
      Sent (PutObject BUCKET_NAME "chunks/abc" abc) None;
      Sent (PutItemIfAbsent CHUNKS_TABLE abcItem) (Some ConditionalCheckFailed)]) /\
  let h := sha256Hex plainDigest abc in
  let key := "chunks/" +:+ h in
  let s2 := storeObject key abc (served (served raceWorld)) in
  let item := ChunkItem.mk h (blen abc) key (wallClock s2) in
  exists existed s' t,
    processChunk plainDigest abc initially raceWorld =
      (Ok (tally existed h initially), s', t) /\
    (existed = true <-> is_Some (chunksTable (served raceWorld) !! h)) /\
    chunkHashes (tally existed h initially) = chunkHashes initially ++ [h] /\
    (existed = true ->
       reusedChunks (tally existed h initially) = reusedChunks initially + 1 /\
       uploadedNewChunks (tally existed h initially) = uploadedNewChunks initially /\
       t = [Ensure h abc; Sent (GetItem CHUNKS_TABLE h) None]) /\
    (existed = false ->
       uploadedNewChunks (tally existed h initially) =
         uploadedNewChunks initially + 1 /\
       reusedChunks (tally existed h initially) = reusedChunks initially /\
       s3Bucket s' !! key = Some abc /\
       exists rej,
         t = [Ensure h abc; Sent (GetItem CHUNKS_TABLE h) None;
              Sent (PutObject BUCKET_NAME key abc) None;
              Sent (PutItemIfAbsent CHUNKS_TABLE item) rej] /\
         (rej = None -> chunksTable s' !! h = Some item) /\
         (fault (upcoming s2) = None ->
          is_Some (chunksTable (served s2) !! h) ->
          rej = Some ConditionalCheckFailed /\
          chunksTable s' = chunksTable (served s2))).
Proof.
  assert (fault (upcoming raceWorld) = None) as H1 by reflexivity.
  assert (chunksTable (served raceWorld) !! sha256Hex plainDigest abc = None ->
          fault (upcoming (served raceWorld)) = None) as H2
    by (intros _; reflexivity).
  split; [exact H1|]. split; [exact H2|]. split; [vm_compute; reflexivity|].
  exact (C2_chunk_step plainDigest abc initially raceWorld H1 H2).
Defined.

(** The chunk [abc] in a world whose index holds it. *)
Lemma C9_present_chunk_writes_nothing_witness :
  fault (upcoming (abcStored 0)) = None /\
  chunksTable (served (abcStored 0)) !! sha256Hex plainDigest abc = Some abcItem /\
  let h := sha256Hex plainDigest abc in
  exists s' t,
    processChunk plainDigest abc initially (abcStored 0) =
      (Ok (tally true h initially), s', t) /\
    t = [Ensure h abc; Sent (GetItem CHUNKS_TABLE h) None] /\
    Forall (fun ev => isStoreWrite ev = false /\ isIndexWrite ev = false) t /\
    s3Bucket s' = s3Bucket (abcStored 0) /\
    chunksTable s' = chunksTable (served (abcStored 0)) /\
    filesTable s' = filesTable (abcStored 0) /\
    reusedChunks (tally true h initially) = reusedChunks initially + 1 /\
    uploadedNewChunks (tally true h initially) = uploadedNewChunks initially /\
    chunkHashes (tally true h initially) = chunkHashes initially ++ [h].
Proof.
  assert (fault (upcoming (abcStored 0)) = None) as H1 by reflexivity.
  assert (chunksTable (served (abcStored 0)) !! sha256Hex plainDigest abc =
          Some abcItem) as H2 by (vm_compute; reflexivity).
  split; [exact H1|]. split; [exact H2|].
  exact (C9_present_chunk_writes_nothing plainDigest abc initially (abcStored 0)
           abcItem H1 H2).
Defined.

(** A file without bytes, uploaded into the empty world. *)
Lemma C8_empty_stream_witness :
  content (readStream emptyFile) = [] /\
  ending (readStream emptyFile) = EndOfFile /\
  fault (upcoming emptyWorld) = None /\
  upload plainDigest (Some emptyFile) emptyWorld =
    (Ok (Status200
           (Reply.mk "File processed with chunk-level deduplication." "0"
                     "empty.bin" 0 0 0 0)),
     mkSys ∅ ∅ {[ "0" := emptyManifest ]} [] "" uuidOf 1,
     [Sent (PutItem FILES_TABLE emptyManifest) None]) /\
  exists b m s' t,
    upload plainDigest (Some emptyFile) emptyWorld = (Ok (Status200 b), s', t) /\
    emitted t = [] /\
    Reply.chunks b = 0 /\
    Reply.size b = 0 /\
    Reply.uploadedNewChunks b = 0 /\
    Reply.reusedChunks b = 0 /\
    filesTable s' !! Reply.fileId b = Some m /\
    FileItem.chunkHashes m = [] /\
    FileItem.size m = 0 /\
    FileItem.contentHash m = sha256Hex plainDigest [] /\
    t = [Sent (PutItem FILES_TABLE m) None].
Proof.
  split; [reflexivity|]. split; [reflexivity|]. split; [reflexivity|].
  split; [vm_compute; reflexivity|].
  exact (C8_empty_stream plainDigest emptyFile emptyWorld eq_refl eq_refl eq_refl).
Defined.

(** [fileA] and then [fileB], which carry the same bytes under two names. *)
Lemma C7_same_bytes_twice_witness :
  Inj (=) (=) (rng emptyWorld) /\
  content (readStream fileA) = content (readStream fileB) /\
  upload plainDigest (Some fileA) emptyWorld =
    (Ok (Status200 replyA), afterA,
     abcHistory ++ [Sent (PutItem FILES_TABLE manifestA) None]) /\
  upload plainDigest (Some fileB) afterA =
    (Ok (Status200 replyB), afterB,
     [Ensure "abc" abc; Sent (GetItem CHUNKS_TABLE "abc") None;
      Sent (PutItem FILES_TABLE manifestB) None]) /\
  exists b2 m1 m2,
    Ok (Status200 replyB) = Ok (Status200 b2) /\
    filesTable afterB !! Reply.fileId replyA = Some m1 /\
    filesTable afterB !! Reply.fileId b2 = Some m2 /\
    FileItem.fileId m1 = Reply.fileId replyA /\
    FileItem.fileId m2 = Reply.fileId b2 /\
    FileItem.chunkHashes m1 = FileItem.chunkHashes m2 /\
    FileItem.contentHash m1 = FileItem.contentHash m2 /\
    FileItem.fileId m1 <> FileItem.fileId m2 /\
    Reply.reusedChunks b2 = Reply.chunks b2 /\
    Reply.uploadedNewChunks b2 = 0.
Proof.
  assert (Inj (=) (=) (rng emptyWorld)) as Hinj
    by (intros x y H; exact (inj pretty x y H)).
  assert (content (readStream fileA) = content (readStream fileB)) as Same
    by reflexivity.
  assert (upload plainDigest (Some fileA) emptyWorld =
            (Ok (Status200 replyA), afterA,
             abcHistory ++ [Sent (PutItem FILES_TABLE manifestA) None])) as Run1
    by (vm_compute; reflexivity).
  assert (upload plainDigest (Some fileB) afterA =
            (Ok (Status200 replyB), afterB,
             [Ensure "abc" abc; Sent (GetItem CHUNKS_TABLE "abc") None;
              Sent (PutItem FILES_TABLE manifestB) None])) as Run2
    by (vm_compute; reflexivity).
  assert (forall h,
            h ∈ digests (abcHistory ++ [Sent (PutItem FILES_TABLE manifestA) None]) ->
            is_Some (chunksTable afterA !! h)) as Index.
  { intros h Hh. change (h ∈ ["abc"]) in Hh.
    apply list_elem_of_singleton in Hh. rewrite Hh.
    exists abcItem. vm_compute. reflexivity. }
  assert (faultFree (schedule afterA)) as Quiet by (apply Forall_nil_2).
  split; [exact Hinj|]. split; [exact Same|]. split; [exact Run1|].
  split; [exact Run2|].
  exact (C7_same_bytes_twice plainDigest fileA fileB emptyWorld replyA afterA _ _ _ _
           Hinj Same eq_refl Run1 Index Quiet Run2).
Defined.

(** C3 (the code departs from the claim).  The index rejects the conditional
    insert of a new chunk with a throttling error, which is not the
    already-exists outcome.  The upload is not aborted: the empty [catch]
    clause of [ensureChunkStored] swallows the rejection, the chunk is counted
    as new, the manifest is stored and the reply is a 200, while the index
    holds no item for the chunk. *)
Theorem C3_index_write_failure_is_swallowed :
  upload plainDigest (Some fileA) throttledIndex =
    (Ok (Status200 replyA), indexThrottled,
     [Ensure "abc" abc; Sent (GetItem CHUNKS_TABLE "abc") None;
      Sent (PutObject BUCKET_NAME "chunks/abc" abc) None;
      Sent (PutItemIfAbsent CHUNKS_TABLE abcItem) (Some throttled);
      Sent (PutItem FILES_TABLE manifestA) None]) /\
  name throttled <> name ConditionalCheckFailed /\
  chunksTable indexThrottled !! "abc" = None /\
  filesTable indexThrottled !! "0" = Some manifestA.
Proof.
  split; [vm_compute; reflexivity|]. split; [discriminate|].
  split; vm_compute; reflexivity.
Qed.

(** ** The further statements, run on the scenarios *)

(** The index rejects the lookup of the only chunk. *)
Lemma X1_lookup_failure_aborts_witness :
  upload plainDigest (Some fileA) rejectingIndex =
    (Ok (Status500 "Error processing file: Rate exceeded"), storeRejected,
     [Ensure "abc" abc; Sent (GetItem CHUNKS_TABLE "abc") (Some throttled)]) /\
  (exists e,
     Ok (Status500 "Error processing file: Rate exceeded") =
     Ok (Status500 ("Error processing file: " +:+ message e))) /\
  filesTable storeRejected = filesTable rejectingIndex.
Proof.
  assert (upload plainDigest (Some fileA) rejectingIndex =
            (Ok (Status500 "Error processing file: Rate exceeded"), storeRejected,
             [Ensure "abc" abc;
              Sent (GetItem CHUNKS_TABLE "abc") (Some throttled)])) as Run
    by (vm_compute; reflexivity).
  split; [exact Run|].
  apply (X1_lookup_failure_aborts plainDigest _ _ _ _ _ Run).
  exists CHUNKS_TABLE, "abc", throttled. apply list_elem_of_In. simpl. auto.
Defined.

(** The empty world has an empty schedule: nothing is rejected. *)
Lemma X3_quiet_upload_succeeds_witness :
  faultFree (schedule emptyWorld) /\
  ending (readStream fileA) = EndOfFile /\
  exists b m s' t,
    upload plainDigest (Some fileA) emptyWorld = (Ok (Status200 b), s', t) /\
    filesTable s' !! Reply.fileId b = Some m /\
    FileItem.fileId m = Reply.fileId b /\
    (forall h, h ∈ FileItem.chunkHashes m -> is_Some (chunksTable s' !! h)) /\
    faultFree (schedule s').
Proof.
  assert (faultFree (schedule emptyWorld)) as Quiet by (apply Forall_nil_2).
  split; [exact Quiet|]. split; [reflexivity|].
  exact (X3_quiet_upload_succeeds plainDigest fileA emptyWorld Quiet eq_refl).
Defined.

(** The upload of [fileA] with a throttled index: the one rejection of its
    history is that of the conditional insert. *)
Lemma X4_success_means_accepted_witness :
  upload plainDigest (Some fileA) throttledIndex =
    (Ok (Status200 replyA), indexThrottled, throttledHistory) /\
  ending (readStream fileA) = EndOfFile /\
  (forall c e, Sent c (Some e) ∈ throttledHistory ->
               isIndexWrite (Sent c (Some e)) = true) /\
  exists m, last throttledHistory = Some (Sent (PutItem FILES_TABLE m) None) /\
            filesTable indexThrottled !! Reply.fileId replyA = Some m.
Proof.
  assert (upload plainDigest (Some fileA) throttledIndex =
            (Ok (Status200 replyA), indexThrottled, throttledHistory)) as Run
    by (vm_compute; reflexivity).
  split; [exact Run|].
  exact (X4_success_means_accepted plainDigest _ _ _ _ _ Run).
Defined.

(** The item of [abc] survives the upload of [fileB]. *)
Lemma X5_index_only_grows_witness :
  upload plainDigest (Some fileB) afterA =
    (Ok (Status200 replyB), afterB, uploadBHistory) /\
  chunksTable afterA !! "abc" = Some abcItem /\
  chunksTable afterB !! "abc" = Some abcItem.
Proof.
  assert (upload plainDigest (Some fileB) afterA =
            (Ok (Status200 replyB), afterB, uploadBHistory)) as Run
    by (vm_compute; reflexivity).
  assert (chunksTable afterA !! "abc" = Some abcItem) as Held
    by (vm_compute; reflexivity).
  split; [exact Run|]. split; [exact Held|].
  exact (X5_index_only_grows plainDigest _ _ _ _ _ _ _ Run Held).
Defined.

(** The manifest of [fileA] is untouched by the upload of [fileB]. *)
Lemma X6_other_manifests_untouched_witness :
  upload plainDigest (Some fileB) afterA =
    (Ok (Status200 replyB), afterB, uploadBHistory) /\
  "0" <> rng afterA (drawn afterA) /\
  drawn afterB = S (drawn afterA) /\
  filesTable afterB !! "0" = filesTable afterA !! "0".
Proof.
  assert (upload plainDigest (Some fileB) afterA =
            (Ok (Status200 replyB), afterB, uploadBHistory)) as Run
    by (vm_compute; reflexivity).
  assert ("0" <> rng afterA (drawn afterA)) as Other
    by (vm_compute; discriminate).
  split; [exact Run|]. split; [exact Other|].
  exact (X6_other_manifests_untouched plainDigest _ _ _ _ _ "0" Run Other).
Defined.

(** With a throttled index the chunk of [fileA] has no index item, and is
    backed by its blob. *)
Lemma X9_manifest_is_backed_witness :
  upload plainDigest (Some fileA) throttledIndex =
    (Ok (Status200 replyA), indexThrottled, throttledHistory) /\
  exists m,
    filesTable indexThrottled !! Reply.fileId replyA = Some m /\
    forall h, h ∈ FileItem.chunkHashes m ->
      is_Some (chunksTable indexThrottled !! h) \/
      blobStored plainDigest indexThrottled h.
Proof.
  assert (upload plainDigest (Some fileA) throttledIndex =
            (Ok (Status200 replyA), indexThrottled, throttledHistory)) as Run
    by (vm_compute; reflexivity).
  split; [exact Run|].
  exact (X9_manifest_is_backed plainDigest _ _ _ _ _ Run).
Defined.

(** One lookup, one blob write and one conditional insert for the one new
    chunk of [fileA]. *)
Lemma X10_counters_count_requests_witness :
  upload plainDigest (Some fileA) emptyWorld =
    (Ok (Status200 replyA), afterA, uploadAHistory) /\
  Reply.chunks replyA = countEvents isLookup uploadAHistory /\
  Reply.uploadedNewChunks replyA = countEvents isStoreWrite uploadAHistory /\
  countEvents isIndexWrite uploadAHistory =
    countEvents isStoreWrite uploadAHistory /\
  Reply.reusedChunks replyA + countEvents isStoreWrite uploadAHistory =
    countEvents isLookup uploadAHistory.
Proof.
  assert (upload plainDigest (Some fileA) emptyWorld =
            (Ok (Status200 replyA), afterA, uploadAHistory)) as Run
    by (vm_compute; reflexivity).
  split; [exact Run|].
  exact (X10_counters_count_requests plainDigest _ _ _ _ _ Run).
Defined.

(** Three bytes need one chunk. *)
Lemma X11_chunk_count_witness :
  upload plainDigest (Some fileA) emptyWorld =
    (Ok (Status200 replyA), afterA, uploadAHistory) /\
  Reply.size replyA = blen (content (readStream fileA)) /\
  Reply.chunks replyA = chunksNeeded (Reply.size replyA) /\
  exists m,
    filesTable afterA !! Reply.fileId replyA = Some m /\
    N.of_nat (length (FileItem.chunkHashes m)) = chunksNeeded (FileItem.size m).
Proof.
  assert (upload plainDigest (Some fileA) emptyWorld =
            (Ok (Status200 replyA), afterA, uploadAHistory)) as Run
    by (vm_compute; reflexivity).
  split; [exact Run|].
  exact (X11_chunk_count plainDigest _ _ _ _ _ Run).
Defined.

(** The one hash of the manifest of [fileA] is the digest of its first
    slice. *)
Lemma X12_manifest_hashes_are_slice_digests_witness :
  upload plainDigest (Some fileA) emptyWorld =
    (Ok (Status200 replyA), afterA, uploadAHistory) /\
  exists m,
    filesTable afterA !! Reply.fileId replyA = Some m /\
    forall i h, FileItem.chunkHashes m !! i = Some h ->
      h = sha256Hex plainDigest (sliceAt (content (readStream fileA)) i).
Proof.
  assert (upload plainDigest (Some fileA) emptyWorld =
            (Ok (Status200 replyA), afterA, uploadAHistory)) as Run
    by (vm_compute; reflexivity).
  split; [exact Run|].
  exact (X12_manifest_hashes_are_slice_digests plainDigest _ _ _ _ _ Run).
Defined.

(** [fileA] is uploaded into the empty world and the table is listed with a
    page of ten items. *)
Lemma X14_upload_then_list_witness :
  upload plainDigest (Some fileA) emptyWorld =
    (Ok (Status200 replyA), afterA, uploadAHistory) /\
  fault (upcoming afterA) = None /\
  (size (filesTable afterA) <= 10)%nat /\
  listFiles 10 afterA = (Ok (Listing [manifestA]), afterA, []) /\
  exists items m s2,
    listFiles 10 afterA = (Ok (Listing items), s2, []) /\
    m ∈ items /\
    FileItem.fileId m = Reply.fileId replyA /\
    FileItem.fileName m = Reply.fileName replyA /\
    FileItem.size m = Reply.size replyA /\
    FileItem.contentHash m =
      sha256Hex plainDigest (content (readStream fileA)) /\
    N.of_nat (length (FileItem.chunkHashes m)) = Reply.chunks replyA.
Proof.
  assert (upload plainDigest (Some fileA) emptyWorld =
            (Ok (Status200 replyA), afterA, uploadAHistory)) as Run
    by (vm_compute; reflexivity).
  assert (fault (upcoming afterA) = None) as Accepted by reflexivity.
  assert (size (filesTable afterA) <= 10)%nat as Fits by (vm_compute; lia).
  split; [exact Run|]. split; [exact Accepted|]. split; [exact Fits|].
  split; [vm_compute; reflexivity|].
  exact (X14_upload_then_list plainDigest _ _ _ _ _ 10%nat Run Accepted Fits).
Defined.

(** ** The statements on the chunker and on failures, run on the scenarios *)

(** A stream of [CHUNK_SIZE] bytes and one more byte, in the empty world:
    the promise resolves with two chunks, the first of [CHUNK_SIZE] bytes. *)
Lemma C1_chunk_lengths_witness :
  exists l s' t,
    streamPromiseE plainDigest chunkAndByte None initially emptyWorld =
      (Ok l, s', t) /\
    N.of_nat (length (emitted t)) = 2 /\
    sumLengths (emitted t) = CHUNK_SIZE + 1 /\
    (forall c, emitted t !! 0%nat = Some c ->
       c = sliceAt (content chunkAndByte) 0 /\ blen c = CHUNK_SIZE) /\
    (forall c, emitted t !! 1%nat = Some c ->
       c = sliceAt (content chunkAndByte) 1 /\ 0 < blen c <= CHUNK_SIZE).
Proof.
  destruct (C1_chunk_lengths plainDigest chunkAndByte None emptyWorld)
    as (o & s' & t & Run & _ & Cut & Resolves & Done).
  assert (blen (content chunkAndByte) = CHUNK_SIZE + 1) as Len.
  { unfold content, chunkAndByte, fullChunk, blen. cbn [fragments concat].
    rewrite !length_app, length_replicate. cbn [length]. lia. }
  destruct Resolves as [l ->];
    [reflexivity|apply Forall_nil_2|intros n e; discriminate|].
  destruct (Done l eq_refl) as (Sum & Count & _).
  assert (N.of_nat (length (emitted t)) = 2) as Two
    by (rewrite Count, Len; vm_compute; reflexivity).
  exists l, s', t. split; [exact Run|]. split; [exact Two|].
  split; [by rewrite Sum, Len|]. split.
  - intros c Hc. destruct (Cut _ _ Hc) as (Hs & _ & Hfull).
    split; [exact Hs|]. apply Hfull. lia.
  - intros c Hc. destruct (Cut _ _ Hc) as (Hs & Hb & _). by split.
Defined.

(** The stream emits ['error'] while the blob write of the only chunk is in
    flight, and the store then rejects that write: the reply carries the read
    error. *)
Lemma C6_failure_aborts_witness :
  uploadE plainDigest (Some fileA) (Some (1%nat, readFailure)) rejectingStore =
    (Ok (Status500 "Error processing file: EIO: i/o error, read"),
     storeRejected,
     [Ensure "abc" abc; Sent (GetItem CHUNKS_TABLE "abc") None;
      Sent (PutObject BUCKET_NAME "chunks/abc" abc) (Some accessDenied)]) /\
  (exists e,
     Ok (Status500 "Error processing file: EIO: i/o error, read") =
     Ok (Status500 ("Error processing file: " +:+ message e))) /\
  filesTable storeRejected = filesTable rejectingStore.
Proof.
  assert (uploadE plainDigest (Some fileA) (Some (1%nat, readFailure))
            rejectingStore =
          (Ok (Status500 "Error processing file: EIO: i/o error, read"),
           storeRejected,
           [Ensure "abc" abc; Sent (GetItem CHUNKS_TABLE "abc") None;
            Sent (PutObject BUCKET_NAME "chunks/abc" abc) (Some accessDenied)]))
    as Run by (vm_compute; reflexivity).
  split; [exact Run|].
  apply (C6_failure_aborts plainDigest _ _ _ _ _ _ Run).
  right; left. exists 1%nat, readFailure. split; [reflexivity|].
  vm_compute. lia.
Defined.

(** The stream has emitted ['end'] and emits ['error'] while the conditional
    insert of the tail chunk is in flight: the chunk is stored and indexed,
    the reply is a 500 with the message of that error, and there is no
    manifest. *)
Lemma X2_failure_is_reported_witness :
  uploadE plainDigest (Some fileA) (Some (2%nat, closeFailure)) emptyWorld =
    (Ok (Status500 "Error processing file: EIO: i/o error, close"),
     abcStored 1, abcHistory) /\
  exists e,
    "Error processing file: EIO: i/o error, close" =
      "Error processing file: " +:+ message e /\
    ((exists n, Some (2%nat, closeFailure) = Some (n, e) /\
                (n < chunkRequests abcHistory)%nat) \/
     ending (readStream fileA) = ReadError e \/
     exists c, last abcHistory = Some (Sent c (Some e)) /\
               isIndexWrite (Sent c (Some e)) = false) /\
    filesTable (abcStored 1) = filesTable emptyWorld.
Proof.
  assert (uploadE plainDigest (Some fileA) (Some (2%nat, closeFailure))
            emptyWorld =
          (Ok (Status500 "Error processing file: EIO: i/o error, close"),
           abcStored 1, abcHistory)) as Run by (vm_compute; reflexivity).
  split; [exact Run|].
  exact (X2_failure_is_reported plainDigest _ _ _ _ _ _ Run).
Defined.

(** The requests of the same interrupted upload. *)
Lemma X7_writes_are_content_addressed_witness :
  uploadE plainDigest (Some fileA) (Some (2%nat, closeFailure)) emptyWorld =
    (Ok (Status500 "Error processing file: EIO: i/o error, close"),
     abcStored 1, abcHistory) /\
  (forall bkt key body rej, Sent (PutObject bkt key body) rej ∈ abcHistory ->
     bkt = BUCKET_NAME /\ key = blobKey (sha256Hex plainDigest body) /\
     sliceOf (content (readStream fileA)) (emitted abcHistory) body) /\
  (forall tbl item rej, Sent (PutItemIfAbsent tbl item) rej ∈ abcHistory ->
     tbl = CHUNKS_TABLE /\
     exists body,
       Sent (PutObject BUCKET_NAME (ChunkItem.s3Key item) body) None
         ∈ abcHistory /\
       describes plainDigest item body).
Proof.
  assert (uploadE plainDigest (Some fileA) (Some (2%nat, closeFailure))
            emptyWorld =
          (Ok (Status500 "Error processing file: EIO: i/o error, close"),
           abcStored 1, abcHistory)) as Run by (vm_compute; reflexivity).
  split; [exact Run|].
  exact (X7_writes_are_content_addressed plainDigest _ _ _ _ _ _ Run).
Defined.

(** The bucket after the same interrupted upload. *)
Lemma X8_bucket_is_content_addressed_witness :
  uploadE plainDigest (Some fileA) (Some (2%nat, closeFailure)) emptyWorld =
    (Ok (Status500 "Error processing file: EIO: i/o error, close"),
     abcStored 1, abcHistory) /\
  (forall key, is_Some (s3Bucket emptyWorld !! key) ->
               is_Some (s3Bucket (abcStored 1) !! key)) /\
  (forall key body, s3Bucket (abcStored 1) !! key = Some body ->
     s3Bucket emptyWorld !! key = Some body \/
     (key = blobKey (sha256Hex plainDigest body) /\
      sliceOf (content (readStream fileA)) (emitted abcHistory) body)).
Proof.
  assert (uploadE plainDigest (Some fileA) (Some (2%nat, closeFailure))
            emptyWorld =
          (Ok (Status500 "Error processing file: EIO: i/o error, close"),
           abcStored 1, abcHistory)) as Run by (vm_compute; reflexivity).
  split; [exact Run|].
  exact (X8_bucket_is_content_addressed plainDigest _ _ _ _ _ _ Run).
Defined.
